(** * SimpleFHE: a shallow embedding of [simple_fhe.py]

    The Python class [SimpleFHE] is embedded as monadic Rocq code over an
    explicit world: the fields of the engine object ([self]) and the state of
    the process-wide generator of Python's [random] module.  Python integers
    are [Z]; lists of integers are [list Z]; exceptions are values of [exn].

    The [print] calls of the source only write to standard output and are
    left out.  Messages and ciphertext entries are taken to be integers. *)

From Stdlib Require Import String ZArith List Lia Bool.
Import ListNotations.
Open Scope Z_scope.

(* ================================================================== *)
(** ** Python values, exceptions and builtins *)

Module Py.

(** The exceptions the program can raise.  [ValueError] carries its message,
    since the source raises it at several places with different texts. *)
Inductive exn : Type :=
| ValueError (msg : string)
| IndexError
| ZeroDivisionError.

(** The outcome of running a piece of code: a value, an exception, or
    [OutOfFuel] when a loop of the model used up its fuel (the only such loop
    is the rejection loop inside [random.randint]). *)
Inductive result (A : Type) : Type :=
| Ok (a : A)
| Raise (e : exn)
| OutOfFuel.
Arguments Ok {A} a.
Arguments Raise {A} e.
Arguments OutOfFuel {A}.

(** [len(l)] *)
Definition len (l : list Z) : Z := Z.of_nat (length l).

(** [a % b]: Python's remainder has the sign of the divisor, as [Z.modulo]. *)
Definition mod_ (a b : Z) : result Z :=
  if b =? 0 then Raise ZeroDivisionError else Ok (a mod b).

(** [a // b]: floor division, as [Z.div]. *)
Definition floordiv (a b : Z) : result Z :=
  if b =? 0 then Raise ZeroDivisionError else Ok (a / b).

(** [l[i]], negative indices counting from the end. *)
Definition getitem (l : list Z) (i : Z) : result Z :=
  let j := if i <? 0 then i + len l else i in
  if (0 <=? j) && (j <? len l)
  then Ok (nth (Z.to_nat j) l 0)
  else Raise IndexError.

(** [l[:stop]]: a negative [stop] counts from the end, and the bound is
    clamped to the list, so a slice never raises. *)
Definition slice_to (l : list Z) (stop : Z) : list Z :=
  let s := if stop <? 0 then Z.max 0 (stop + len l) else Z.min stop (len l) in
  firstn (Z.to_nat s) l.

(** [range(n)]: empty when [n <= 0]. *)
Definition range (n : Z) : list Z := map Z.of_nat (seq 0 (Z.to_nat n)).

(** [zip(l1, l2)] stops at the shorter list. *)
Definition zip (l1 l2 : list Z) : list (Z * Z) := combine l1 l2.

(** [sum(l)]: starts from 0 and adds from the left, nothing is reduced. *)
Definition sum (l : list Z) : Z := fold_left Z.add l 0.

(** [x in l] *)
Definition in_ (x : Z) (l : list Z) : bool := existsb (Z.eqb x) l.

End Py.
Import Py.

(* ================================================================== *)
(** ** The [random] module *)

(** What the program uses of Python's [random]: [random.seed(a)], which
    replaces the state of the process-wide generator, and [random.randint(a, b)],
    which draws from it. *)
Record RandomModule : Type := {
  rng_state : Type;
  rng_seed : Z -> rng_state;
  rng_randint : Z -> Z -> rng_state -> result Z * rng_state
}.

(** CPython's generator: the Mersenne Twister MT19937 of [_randommodule.c],
    seeded and sampled as [Lib/random.py] does for integer arguments.
    32-bit words are [Z] with the wrap-around written out by [u32]. *)
Module MT.

Definition u32 (x : Z) : Z := Z.land x 0xffffffff.
Definition N : nat := 624.
Definition M : nat := 397.
Definition MATRIX_A : Z := 0x9908b0df.
Definition UPPER_MASK : Z := 0x80000000.
Definition LOWER_MASK : Z := 0x7fffffff.

(** The generator object: the state vector and the position in it. *)
Record RandomObject : Type := { state : list Z; index : nat }.

Definition get (mt : list Z) (i : nat) : Z := nth i mt 0.

Fixpoint set (mt : list Z) (i : nat) (v : Z) : list Z :=
  match mt, i with
  | [], _ => []
  | _ :: t, O => v :: t
  | h :: t, S i' => h :: set t i' v
  end.

Definition init_genrand (s : Z) : RandomObject :=
  let mt := set (repeat 0 N) 0 (u32 s) in
  let mt :=
    fold_left
      (fun mt mti =>
         let p := get mt (mti - 1) in
         set mt mti (u32 (1812433253 * Z.lxor p (Z.shiftr p 30) + Z.of_nat mti)))
      (seq 1 (N - 1)) mt in
  {| state := mt; index := N |}.

(** First loop of [init_by_array]: [k] iterations over the key. *)
Fixpoint init_by_array_mix (k : nat) (init_key : list Z) (mt : list Z) (i j : nat)
  : list Z * nat :=
  match k with
  | O => (mt, i)
  | S k' =>
    let p := get mt (i - 1) in
    let mt :=
      set mt i (u32 (Z.lxor (get mt i) (u32 (Z.lxor p (Z.shiftr p 30) * 1664525))
                     + nth j init_key 0 + Z.of_nat j)) in
    let i := S i in
    let j := S j in
    let '(mt, i) :=
      if (N <=? i)%nat then (set mt 0 (get mt (N - 1)), 1%nat) else (mt, i) in
    let j := if (length init_key <=? j)%nat then O else j in
    init_by_array_mix k' init_key mt i j
  end.

(** Second loop of [init_by_array]. *)
Fixpoint init_by_array_finish (k : nat) (mt : list Z) (i : nat) : list Z :=
  match k with
  | O => mt
  | S k' =>
    let p := get mt (i - 1) in
    let mt :=
      set mt i (u32 (Z.lxor (get mt i) (u32 (Z.lxor p (Z.shiftr p 30) * 1566083941))
                     - Z.of_nat i)) in
    let i := S i in
    let '(mt, i) :=
      if (N <=? i)%nat then (set mt 0 (get mt (N - 1)), 1%nat) else (mt, i) in
    init_by_array_finish k' mt i
  end.

Definition init_by_array (init_key : list Z) : RandomObject :=
  let mt := state (init_genrand 19650218) in
  let '(mt, i) := init_by_array_mix (Nat.max N (length init_key)) init_key mt 1 0 in
  let mt := init_by_array_finish (N - 1) mt i in
  {| state := set mt 0 0x80000000; index := N |}.

Definition mag01 (y : Z) : Z := if Z.testbit y 0 then MATRIX_A else 0.

Definition twist (mt : list Z) (kk next src : nat) : list Z :=
  let y := Z.lor (Z.land (get mt kk) UPPER_MASK) (Z.land (get mt next) LOWER_MASK) in
  set mt kk (Z.lxor (Z.lxor (get mt src) (Z.shiftr y 1)) (mag01 y)).

Definition genrand_uint32 (self : RandomObject) : Z * RandomObject :=
  let self :=
    if (N <=? index self)%nat then
      let mt := state self in
      let mt := fold_left (fun mt kk => twist mt kk (kk + 1) (kk + M))
                          (seq 0 (N - M)) mt in
      let mt := fold_left (fun mt kk => twist mt kk (kk + 1) (kk + M - N))
                          (seq (N - M) (M - 1)) mt in
      let mt := twist mt (N - 1) 0 (M - 1) in
      {| state := mt; index := 0 |}
    else self in
  let y := get (state self) (index self) in
  let y := Z.lxor y (Z.shiftr y 11) in
  let y := Z.lxor y (Z.land (Z.shiftl y 7) 0x9d2c5680) in
  let y := Z.lxor y (Z.land (Z.shiftl y 15) 0xefc60000) in
  let y := Z.lxor y (Z.shiftr y 18) in
  (u32 y, {| state := state self; index := S (index self) |}).

(** [n.bit_length()] *)
Definition bit_length (n : Z) : Z := if n =? 0 then 0 else Z.log2 (Z.abs n) + 1.

(** [random.seed(a)] for an integer [a]: the 32-bit words of [abs(a)], least
    significant first, are the key of [init_by_array]. *)
Definition seed (a : Z) : RandomObject :=
  let n := Z.abs a in
  let bits := bit_length n in
  let keyused := if bits =? 0 then 1 else (bits - 1) / 32 + 1 in
  init_by_array
    (map (fun i => u32 (Z.shiftr n (32 * Z.of_nat i))) (seq 0 (Z.to_nat keyused))).

(** The words of [getrandbits(k)] for [k > 32], least significant first: each
    is a full draw, except the last, which keeps its top [k mod 32] bits. *)
Fixpoint getrandbits_words (words : nat) (k : Z) (self : RandomObject)
  : Z * RandomObject :=
  match words with
  | O => (0, self)
  | S words' =>
    let '(r, self) := genrand_uint32 self in
    let r := if k <? 32 then Z.shiftr r (32 - k) else r in
    let '(high, self) := getrandbits_words words' (k - 32) self in
    (Z.lor r (Z.shiftl high 32), self)
  end.

(** [getrandbits(k)] *)
Definition getrandbits (k : Z) (self : RandomObject) : result Z * RandomObject :=
  if k <? 0 then (Raise (ValueError "number of bits must be non-negative"), self)
  else if k =? 0 then (Ok 0, self)
  else if k <=? 32 then
    let '(y, self) := genrand_uint32 self in
    (Ok (Z.shiftr y (32 - k)), self)
  else
    let '(r, self) := getrandbits_words (Z.to_nat ((k - 1) / 32 + 1)) k self in
    (Ok r, self).

(** [_randbelow(n)]: draw [n.bit_length()] bits until the draw is below [n].
    The loop has no bound in Python; the model gives it [fuel] draws. *)
Fixpoint randbelow (fuel : nat) (n : Z) (self : RandomObject)
  : result Z * RandomObject :=
  match fuel with
  | O => (OutOfFuel, self)
  | S fuel' =>
    match getrandbits (bit_length n) self with
    | (Ok r, self) => if n <=? r then randbelow fuel' n self else (Ok r, self)
    | other => other
    end
  end.

Definition randbelow_fuel : nat := 256.

(** [randint(a, b)] is [randrange(a, b + 1)]. *)
Definition randint (a b : Z) (self : RandomObject) : result Z * RandomObject :=
  let width := b + 1 - a in
  if 0 <? width then
    match randbelow randbelow_fuel width self with
    | (Ok r, self) => (Ok (a + r), self)
    | other => other
    end
  else (Raise (ValueError "empty range for randrange()"), self).

End MT.

Definition CPython : RandomModule :=
  {| rng_state := MT.RandomObject; rng_seed := MT.seed; rng_randint := MT.randint |}.

(* ================================================================== *)
(** ** The engine and the world it runs in *)

(** The attributes of a [SimpleFHE] object. *)
Record SimpleFHE : Type := {
  key_size : Z;
  q : Z;
  scale : Z;
  seed : Z;
  secret_key : list Z;
  public_key : list Z
}.

(** Default arguments of [SimpleFHE.__init__]. *)
Definition default_key_size : Z := 1024.
Definition default_seed : Z := 42.

(** The two error classes of the source, both [ValueError] in Python. *)
Definition InvalidInput : exn := ValueError "Message must be a single bit (0 or 1)".
Definition LengthMismatch : exn := ValueError "Ciphertexts must be the same length".

(** The object [__init__] leaves when both key draws return. *)
Definition built (ks sd : Z) (sk pk : list Z) : SimpleFHE :=
  {| key_size := ks; q := 8; scale := 4; seed := sd;
     secret_key := sk; public_key := pk |}.

(** The world a method runs in: the object it is called on ([self]) and the
    state of the generator shared by the whole process ([random]). *)
Record world (S : Type) : Type := { self : SimpleFHE; random : S }.
Arguments self {S} w.
Arguments random {S} w.
Arguments Build_world {S} self random.

Declare Scope py_scope.
Delimit Scope py_scope with py.

Section Engine.

Variable R : RandomModule.

(** What a method can read and write: the object it is called on and the
    generator shared by the whole process, here in a state of [R]. *)
Definition World : Type := world (rng_state R).

(** Code that runs in a world and ends with a value or an exception. *)
Definition M (A : Type) : Type := World -> result A * World.

Definition ret {A} (a : A) : M A := fun w => (Ok a, w).

Definition bind {A B} (c : M A) (k : A -> M B) : M B :=
  fun w =>
    match c w with
    | (Ok a, w') => k a w'
    | (Raise e, w') => (Raise e, w')
    | (OutOfFuel, w') => (OutOfFuel, w')
    end.

Definition raise {A} (e : exn) : M A := fun w => (Raise e, w).

(** A builtin that touches no state. *)
Definition lift {A} (r : result A) : M A := fun w => (r, w).

(** Reading an attribute: [self.f]. *)
Definition attr {A} (f : SimpleFHE -> A) : M A := fun w => (Ok (f (self w)), w).

(** Assigning the attributes: [self.f = v]. *)
Definition update (g : SimpleFHE -> SimpleFHE) : M unit :=
  fun w => (Ok tt, {| self := g (self w); random := random w |}).

Definition set_key_size (v : Z) : M unit :=
  update (fun o => {| key_size := v; q := q o; scale := scale o; seed := seed o;
                      secret_key := secret_key o; public_key := public_key o |}).
Definition set_q (v : Z) : M unit :=
  update (fun o => {| key_size := key_size o; q := v; scale := scale o; seed := seed o;
                      secret_key := secret_key o; public_key := public_key o |}).
Definition set_scale (v : Z) : M unit :=
  update (fun o => {| key_size := key_size o; q := q o; scale := v; seed := seed o;
                      secret_key := secret_key o; public_key := public_key o |}).
Definition set_seed (v : Z) : M unit :=
  update (fun o => {| key_size := key_size o; q := q o; scale := scale o; seed := v;
                      secret_key := secret_key o; public_key := public_key o |}).
Definition set_secret_key (v : list Z) : M unit :=
  update (fun o => {| key_size := key_size o; q := q o; scale := scale o; seed := seed o;
                      secret_key := v; public_key := public_key o |}).
Definition set_public_key (v : list Z) : M unit :=
  update (fun o => {| key_size := key_size o; q := q o; scale := scale o; seed := seed o;
                      secret_key := secret_key o; public_key := v |}).

(** [random.seed(a)] and [random.randint(a, b)] on the shared generator. *)
Definition random_seed (a : Z) : M unit :=
  fun w => (Ok tt, {| self := self w; random := rng_seed R a |}).

Definition random_randint (a b : Z) : M Z :=
  fun w =>
    let '(r, s) := rng_randint R a b (random w) in
    (r, {| self := self w; random := s |}).

Notation "x <- c ;; k" := (bind c (fun x => k))
  (at level 100, c at next level, right associativity) : py_scope.
Notation "c ;; k" := (bind c (fun _ => k))
  (at level 100, right associativity) : py_scope.
Open Scope py_scope.

(** [for x in xs: body], the variables the body assigns being [acc]. *)
Fixpoint for_ {A B} (xs : list A) (body : A -> B -> M B) (acc : B) : M B :=
  match xs with
  | [] => ret acc
  | x :: xs' => acc' <- body x acc ;; for_ xs' body acc'
  end.

(** [[e for x in xs]] *)
Definition comprehension {A B} (e : A -> M B) (xs : list A) : M (list B) :=
  for_ xs (fun x acc => v <- e x ;; ret (acc ++ [v])) [].

(** *** Key generation *)

Definition _generate_secret_key : M (list Z) :=
  n <- attr key_size ;;
  key <- comprehension (fun _ => random_randint 0 1) (range n) ;;
  ret key.

Definition _generate_public_key : M (list Z) :=
  n <- attr key_size ;;
  key <- comprehension (fun _ => random_randint 0 1) (range n) ;;
  ret key.

Definition __init__ (key_size_arg seed_arg : Z) : M unit :=
  set_key_size key_size_arg ;;
  set_q 8 ;;
  q_ <- attr q ;;
  half <- lift (floordiv q_ 2) ;;
  set_scale half ;;
  set_seed seed_arg ;;
  random_seed seed_arg ;;
  sk <- _generate_secret_key ;;
  set_secret_key sk ;;
  pk <- _generate_public_key ;;
  set_public_key pk.

(** *** Encryption and decryption *)

Definition encrypt (message : Z) : M (list Z) :=
  if negb (in_ message [0; 1]) then raise InvalidInput
  else
    let noise := 0 in
    n <- attr key_size ;;
    ciphertext <-
      for_ (range n)
        (fun i ciphertext =>
           pk <- attr public_key ;;
           pk_i <- lift (getitem pk i) ;;
           q_ <- attr q ;;
           value <- lift (mod_ (pk_i + noise) q_) ;;
           ret (ciphertext ++ [value]))
        [] ;;
    sc <- attr scale ;;
    q_ <- attr q ;;
    last_ <- lift (mod_ (message * sc + noise) q_) ;;
    ret (ciphertext ++ [last_]).

Definition decrypt (ciphertext : list Z) : M Z :=
  message_part <- lift (getitem ciphertext (-1)) ;;
  let ciphertext := slice_to ciphertext (-1) in
  sk <- attr secret_key ;;
  let dot_product := sum (map (fun '(a, b) => a * b) (zip ciphertext sk)) in
  q_ <- attr q ;;
  residue <- lift (mod_ (message_part - dot_product) q_) ;;
  sc <- attr scale ;;
  decrypted <- lift (floordiv residue sc) ;;
  ret decrypted.

(** *** Homomorphic operations *)

Definition add (ciphertext1 ciphertext2 : list Z) : M (list Z) :=
  if negb (len ciphertext1 =? len ciphertext2) then raise LengthMismatch
  else
    result_ <-
      for_ (zip (slice_to ciphertext1 (-1)) (slice_to ciphertext2 (-1)))
        (fun '(a, b) result_ =>
           q_ <- attr q ;;
           v <- lift (mod_ (a + b) q_) ;;
           ret (result_ ++ [v]))
        [] ;;
    msg1 <- lift (getitem ciphertext1 (-1)) ;;
    msg2 <- lift (getitem ciphertext2 (-1)) ;;
    q_ <- attr q ;;
    v <- lift (mod_ (msg1 + msg2) q_) ;;
    ret (result_ ++ [v]).

Definition multiply (ciphertext1 ciphertext2 : list Z) : M (list Z) :=
  if negb (len ciphertext1 =? len ciphertext2) then raise LengthMismatch
  else
    result_ <-
      for_ (zip (slice_to ciphertext1 (-1)) (slice_to ciphertext2 (-1)))
        (fun '(a, b) result_ =>
           q_ <- attr q ;;
           v <- lift (mod_ (a * b) q_) ;;
           ret (result_ ++ [v]))
        [] ;;
    msg1 <- lift (getitem ciphertext1 (-1)) ;;
    msg2 <- lift (getitem ciphertext2 (-1)) ;;
    sc <- attr scale ;;
    b1 <- lift (floordiv msg1 sc) ;;
    sc <- attr scale ;;
    b2 <- lift (floordiv msg2 sc) ;;
    sc <- attr scale ;;
    q_ <- attr q ;;
    result_msg <- lift (mod_ (b1 * b2 * sc) q_) ;;
    ret (result_ ++ [result_msg]).

(** *** Engines and the properties stated about them *)

(** [constructed ks sd w]: the object of world [w] is one that
    [SimpleFHE(key_size=ks, seed=sd)] returned, in whatever world it was
    built; the shared generator may have moved on since. *)
Definition constructed (ks sd : Z) (w : World) : Prop :=
  exists w0 w1, __init__ ks sd w0 = (Ok tt, w1) /\ self w = self w1.

(** What a list comprehension of [n] calls of [random.randint(0, 1)] leaves:
    the draws in order, and the generator after them. *)
Fixpoint draw_bits (n : nat) (acc : list Z) (s : rng_state R)
  : result (list Z) * rng_state R :=
  match n with
  | O => (Ok acc, s)
  | S n' =>
    match rng_randint R 0 1 s with
    | (Ok v, s') => draw_bits n' (acc ++ [v]) s'
    | (Raise e, s') => (Raise e, s')
    | (OutOfFuel, s') => (OutOfFuel, s')
    end
  end.

(** The same object with the shared generator in another state. *)
Definition with_random (w : World) (s : rng_state R) : World :=
  {| self := self w; random := s |}.

(** Every entry is a residue modulo [m]. *)
Definition residues (m : Z) (l : list Z) : Prop := Forall (fun x => 0 <= x < m) l.

(** Decryption as the specification words it: the message entry is the last
    entry, the mask is what precedes it, the dot product ranges over the
    first [key_size] mask positions and is an integer sum, and the result is
    the floor quotient by [scale] of the residue in [[0, q)]. *)
Definition dot_spec (n : nat) (mask key : list Z) : Z :=
  fold_right Z.add 0 (map (fun i => nth i mask 0 * nth i key 0) (seq 0 n)).

Definition decrypt_spec (o : SimpleFHE) (ciphertext : list Z) : Z :=
  let message_part := last ciphertext 0 in
  let mask := removelast ciphertext in
  let dot := dot_spec (Z.to_nat (key_size o)) mask (secret_key o) in
  ((message_part - dot) mod q o) / scale o.

End Engine.

Arguments ret {R A} a w.
Arguments bind {R A B} c k w.

(** The notation of the section, for the statements below. *)
Notation "x <- c ;; k" := (bind c (fun x => k))
  (at level 100, c at next level, right associativity) : py_scope.

(* ================================================================== *)
(** ** Concrete engines under CPython's generator *)

(** An object whose attributes [__init__] has not assigned yet, and a process
    whose generator is in some state before the engine is built. *)
Definition blank : SimpleFHE :=
  {| key_size := 0; q := 0; scale := 0; seed := 0; secret_key := []; public_key := [] |}.

Definition fresh_world : world MT.RandomObject :=
  Build_world blank (MT.init_genrand 5489).

(** Another process state: other attribute values, another generator state. *)
Definition other_world : world MT.RandomObject :=
  Build_world
    {| key_size := 3; q := 5; scale := 7; seed := 9; secret_key := [1; 1]; public_key := [2] |}
    (MT.seed 7).

(** [SimpleFHE(key_size=8)] of [demonstrate_fhe], with the default seed 42. *)
Definition demo_world : world MT.RandomObject :=
  Eval vm_compute in snd (__init__ CPython 8 default_seed fresh_world).

(** [SimpleFHE(key_size=1, seed=0)]. *)
Definition seed0_world : world MT.RandomObject :=
  Eval vm_compute in snd (__init__ CPython 1 0 fresh_world).

(** A generator whose [randint(a, b)] returns values between [a] and [b], as
    the documentation of [random.randint] says. *)
Definition randint_in_range (R : RandomModule) : Prop :=
  forall a b s v s', rng_randint R a b s = (Ok v, s') -> a <= v <= b.

(** The lists whose entries are all 0 or 1. *)
Definition bits (l : list Z) : Prop := Forall (fun x => x = 0 \/ x = 1) l.

(** The four test vectors of [demonstrate_fhe], and for each what decryption
    gives after [add] and after [multiply]. *)
Definition test_cases : list (Z * Z) := [(0, 0); (0, 1); (1, 0); (1, 1)].

Definition demonstrate (w : world MT.RandomObject) (bit1 bit2 : Z) : result Z * result Z :=
  (fst ((ciphertext1 <- encrypt CPython bit1 ;;
         ciphertext2 <- encrypt CPython bit2 ;;
         sum_ciphertext <- add CPython ciphertext1 ciphertext2 ;;
         decrypt CPython sum_ciphertext)%py w),
   fst ((ciphertext1 <- encrypt CPython bit1 ;;
         ciphertext2 <- encrypt CPython bit2 ;;
         product_ciphertext <- multiply CPython ciphertext1 ciphertext2 ;;
         decrypt CPython product_ciphertext)%py w)).

(** [demonstrate_fhe()]: the engine is built with [key_size=8] and the default
    seed, and for each test vector the homomorphic sum and product of the two
    encrypted bits are decrypted.  The function only prints; the model returns
    the pairs [(decrypted_sum, decrypted_product)] it prints, in order. *)
Definition demonstrate_fhe (R : RandomModule) : M R (list (Z * Z)) :=
  (_ <- __init__ R 8 default_seed ;;
   for_ R test_cases
     (fun '(bit1, bit2) printed =>
        ciphertext1 <- encrypt R bit1 ;;
        ciphertext2 <- encrypt R bit2 ;;
        sum_ciphertext <- add R ciphertext1 ciphertext2 ;;
        decrypted_sum <- decrypt R sum_ciphertext ;;
        product_ciphertext <- multiply R ciphertext1 ciphertext2 ;;
        decrypted_product <- decrypt R product_ciphertext ;;
        ret (printed ++ [(decrypted_sum, decrypted_product)]))
     [])%py.

(** What [demonstrate_fhe] prints as expected beside each result. *)
Definition expected : list (Z * Z) :=
  map (fun '(bit1, bit2) => ((bit1 + bit2) mod 2, bit1 * bit2)) test_cases.

(** Code that leaves the world as it found it, whether it returns or raises. *)
Definition read_only {R : RandomModule} {A : Type} (c : M R A) : Prop :=
  forall w, snd (c w) = w.

(** The [dot_product] of [decrypt]: the sum over the zipped pairs. *)
Definition dot_product (mask key : list Z) : Z :=
  sum (map (fun '(a, b) => a * b) (zip mask key)).

(** What [decrypt] divides by [scale]: the message entry minus the dot product
    of the mask with the secret key, reduced modulo [q]. *)
Definition phase (o : SimpleFHE) (ciphertext : list Z) : Z :=
  (last ciphertext 0 - dot_product (removelast ciphertext) (secret_key o)) mod q o.

(** The dot product of the two keys of an engine. *)
Definition key_dot (o : SimpleFHE) : Z := dot_product (public_key o) (secret_key o).

(** The three pipelines of the demonstration on one engine. *)
Definition roundtrip (R : RandomModule) (b : Z) : M R Z :=
  (c <- encrypt R b ;; decrypt R c)%py.

Definition decrypt_add (R : RandomModule) (b1 b2 : Z) : M R Z :=
  (c1 <- encrypt R b1 ;; c2 <- encrypt R b2 ;; s <- add R c1 c2 ;; decrypt R s)%py.

Definition decrypt_multiply (R : RandomModule) (b1 b2 : Z) : M R Z :=
  (c1 <- encrypt R b1 ;; c2 <- encrypt R b2 ;; p <- multiply R c1 c2 ;; decrypt R p)%py.

(* ================================================================== *)
(** ** Facts about the builtins *)

Lemma slice_to_minus_one (l : list Z) : slice_to l (-1) = removelast l.
Proof.
  unfold slice_to, len. change (-1 <? 0) with true. cbv iota zeta.
  destruct l as [|x l]; [reflexivity|].
  replace (Z.to_nat (Z.max 0 (-1 + Z.of_nat (length (x :: l))))) with (length l)
    by (simpl length; lia).
  revert x. induction l as [|y l IH]; intros x; [reflexivity|].
  change (x :: firstn (length l) (y :: l) = x :: removelast (y :: l)).
  now rewrite IH.
Qed.

Lemma getitem_minus_one (l : list Z) :
  l <> [] -> getitem l (-1) = Ok (last l 0).
Proof.
  intros Hl. unfold getitem, len. change (-1 <? 0) with true. cbv iota zeta.
  destruct l as [|x l]; [congruence|]. clear Hl.
  assert (H1 : (0 <=? -1 + Z.of_nat (length (x :: l))) = true)
    by (apply Z.leb_le; simpl length; lia).
  assert (H2 : (-1 + Z.of_nat (length (x :: l)) <? Z.of_nat (length (x :: l))) = true)
    by (apply Z.ltb_lt; lia).
  rewrite H1, H2. simpl andb. cbv iota. f_equal. clear H1 H2.
  replace (Z.to_nat (-1 + Z.of_nat (length (x :: l)))) with (length l)
    by (simpl length; lia).
  revert x. induction l as [|y l IH]; intros x; [reflexivity|].
  change (nth (length l) (y :: l) 0 = last (y :: l) 0). apply IH.
Qed.

Lemma getitem_minus_one_nil : getitem [] (-1) = Raise IndexError.
Proof. reflexivity. Qed.

Lemma getitem_of_nat (l : list Z) (i : nat) :
  (i < length l)%nat -> getitem l (Z.of_nat i) = Ok (nth i l 0).
Proof.
  intros Hi. unfold getitem, len. cbv zeta.
  assert (H0 : (Z.of_nat i <? 0) = false) by (apply Z.ltb_ge; lia).
  assert (H1 : (0 <=? Z.of_nat i) = true) by (apply Z.leb_le; lia).
  assert (H2 : (Z.of_nat i <? Z.of_nat (length l)) = true) by (apply Z.ltb_lt; lia).
  rewrite H0, H1, H2. simpl. now rewrite Nat2Z.id.
Qed.

Lemma removelast_length {A} (l : list A) : length (removelast l) = pred (length l).
Proof.
  induction l as [|x l IH]; [reflexivity|].
  destruct l as [|y l]; [reflexivity|].
  change (S (length (removelast (y :: l))) = S (length l)).
  rewrite IH. reflexivity.
Qed.

Lemma nil_or_not {A} (l : list A) : l = [] \/ l <> [].
Proof. destruct l; [now left | right; discriminate]. Qed.

Lemma snoc_zip_length (f : Z * Z -> Z) (a : Z) (c1 c2 : list Z) :
  c1 <> [] -> length c1 = length c2 ->
  length (map f (zip (removelast c1) (removelast c2)) ++ [a]) = length c1.
Proof.
  intros Hne Hl. unfold zip.
  rewrite length_app, length_map, length_combine, !removelast_length, <- Hl.
  destruct c1; [congruence | simpl; lia].
Qed.

Lemma fold_left_snoc {A B} (g : A -> B) (xs : list A) (acc : list B) :
  fold_left (fun a x => a ++ [g x]) xs acc = acc ++ map g xs.
Proof.
  revert acc. induction xs as [|x xs IH]; intros acc; simpl.
  - now rewrite app_nil_r.
  - rewrite IH, <- app_assoc. reflexivity.
Qed.

Lemma map_nth_seq (f : Z -> Z) (l : list Z) :
  map (fun i => f (nth i l 0)) (seq 0 (length l)) = map f l.
Proof.
  induction l as [|x l IH]; [reflexivity|].
  simpl. f_equal. rewrite <- seq_shift, map_map. exact IH.
Qed.

Lemma fold_left_add_from (l : list Z) (a : Z) :
  fold_left Z.add l a = a + fold_right Z.add 0 l.
Proof.
  revert a. induction l as [|x l IH]; intros a; simpl; [lia|].
  rewrite IH. lia.
Qed.

Lemma sum_fold_right (l : list Z) : sum l = fold_right Z.add 0 l.
Proof. unfold sum. now rewrite fold_left_add_from. Qed.

Lemma dot_spec_nil_mask (n : nat) (key : list Z) (k : nat) :
  fold_right Z.add 0 (map (fun i => nth i [] 0 * nth (k + i) key 0) (seq 0 n)) = 0.
Proof.
  generalize 0%nat. induction n as [|n IH]; intros a; [reflexivity|].
  simpl. rewrite IH. destruct a; reflexivity.
Qed.

(** The sum over the zipped pairs is the positional sum over the first
    [length key] mask positions, missing positions counting for nothing. *)
Lemma zip_dot_spec (mask key : list Z) :
  sum (map (fun '(a, b) => a * b) (zip mask key)) = dot_spec (length key) mask key.
Proof.
  rewrite sum_fold_right. unfold dot_spec, zip.
  revert mask. induction key as [|k key IH]; intros mask.
  - destruct mask; reflexivity.
  - destruct mask as [|m mask].
    + simpl combine. simpl map at 1. simpl fold_right at 1.
      symmetry. apply (dot_spec_nil_mask (S (length key)) (k :: key) 0).
    + simpl. rewrite IH. f_equal. rewrite <- seq_shift, map_map. reflexivity.
Qed.

Lemma residues_app (m : Z) (l1 l2 : list Z) :
  residues m l1 -> residues m l2 -> residues m (l1 ++ l2).
Proof. unfold residues. intros H1 H2. apply Forall_app. now split. Qed.

Lemma residues_map_mod {A} (m : Z) (f : A -> Z) (l : list A) :
  0 < m -> residues m (map (fun x => f x mod m) l).
Proof.
  intros Hm. unfold residues. apply Forall_forall. intros y Hy.
  apply in_map_iff in Hy. destruct Hy as [x [<- _]]. now apply Z.mod_pos_bound.
Qed.

(* ================================================================== *)
(** ** Running the methods *)

Section Runs.

Variable R : RandomModule.
Local Open Scope py_scope.

(** A loop whose body succeeds on every element without touching the world
    is a left fold. *)
Lemma for_pure {A B} (xs : list A) (body : A -> B -> M R B) (f : B -> A -> B)
      (w : world (rng_state R)) :
  (forall x acc, In x xs -> body x acc w = (Ok (f acc x), w)) ->
  forall acc, for_ R xs body acc w = (Ok (fold_left f xs acc), w).
Proof.
  induction xs as [|x xs IH]; intros Hbody acc; [reflexivity|].
  simpl. unfold bind. rewrite (Hbody x acc (or_introl eq_refl)).
  apply IH. intros y a Hy. apply Hbody. now right.
Qed.

(** The list comprehension of key generation only moves the generator. *)
Lemma comprehension_randint_from (xs : list Z) (acc : list Z) (w : world (rng_state R)) :
  for_ R xs (fun _ acc => v <- random_randint R 0 1 ;; ret (acc ++ [v])) acc w
  = (fst (draw_bits R (length xs) acc (random w)),
     with_random R w (snd (draw_bits R (length xs) acc (random w)))).
Proof.
  revert acc w. induction xs as [|x xs IH]; intros acc w.
  - destruct w; reflexivity.
  - simpl. unfold bind at 1 2. unfold random_randint at 1.
    destruct (rng_randint R 0 1 (random w)) as [[v| e |] s']; simpl; try reflexivity.
    rewrite IH. reflexivity.
Qed.

Lemma generate_key_run (w : world (rng_state R)) :
  _generate_secret_key R w
  = (fst (draw_bits R (Z.to_nat (key_size (self w))) [] (random w)),
     with_random R w (snd (draw_bits R (Z.to_nat (key_size (self w))) [] (random w))))
  /\ _generate_public_key R w = _generate_secret_key R w.
Proof.
  split; [|reflexivity].
  unfold _generate_secret_key, comprehension, bind at 1, attr. simpl.
  unfold bind. rewrite comprehension_randint_from.
  unfold range. rewrite length_map, length_seq.
  destruct (draw_bits R (Z.to_nat (key_size (self w))) [] (random w)) as [[l| e |] s'];
    reflexivity.
Qed.

Lemma draw_bits_length (n : nat) (acc l : list Z) (s s' : rng_state R) :
  draw_bits R n acc s = (Ok l, s') -> length l = (length acc + n)%nat.
Proof.
  revert acc s. induction n as [|n IH]; intros acc s H; simpl in H.
  - injection H as <- _. lia.
  - destruct (rng_randint R 0 1 s) as [[v| e |] s1]; try discriminate.
    apply IH in H. rewrite length_app in H. simpl in H. lia.
Qed.

(** [__init__] returns exactly when the two key draws after reseeding
    return, and then every attribute and the generator are determined by
    its arguments alone. *)
Lemma init_run (ks sd : Z) (w w1 : world (rng_state R)) :
  __init__ R ks sd w = (Ok tt, w1) <->
  exists sk s1 pk s2,
    draw_bits R (Z.to_nat ks) [] (rng_seed R sd) = (Ok sk, s1) /\
    draw_bits R (Z.to_nat ks) [] s1 = (Ok pk, s2) /\
    w1 = Build_world (built ks sd sk pk) s2.
Proof.
  unfold __init__.
  unfold bind at 1 2 3 4 5 6 7.
  unfold set_key_size at 1, set_q at 1, attr at 1, lift at 1, set_scale at 1,
    set_seed at 1, random_seed at 1, update. simpl. change (8 / 2) with 4.
  unfold bind at 1.
  destruct (generate_key_run
              (Build_world
                 {| key_size := ks; q := 8; scale := 4; seed := sd;
                    secret_key := secret_key (self w);
                    public_key := public_key (self w) |} (rng_seed R sd)))
    as [Hsk _].
  rewrite Hsk. clear Hsk. simpl.
  destruct (draw_bits R (Z.to_nat ks) [] (rng_seed R sd)) as [[sk| e |] s1] eqn:E1; simpl.
  - unfold bind at 1. unfold set_secret_key at 1, update. simpl.
    unfold bind at 1.
    destruct (generate_key_run
                (Build_world
                   {| key_size := ks; q := 8; scale := 4; seed := sd;
                      secret_key := sk;
                      public_key := public_key (self w) |} s1))
      as [Hpk Heq].
    rewrite Heq, Hpk. clear Hpk Heq. simpl.
    destruct (draw_bits R (Z.to_nat ks) [] s1) as [[pk| e |] s2] eqn:E2; simpl.
    + unfold set_public_key, update. simpl. split.
      * intros H. injection H as <-. exists sk, s1, pk, s2. auto.
      * intros (sk' & s1' & pk' & s2' & H1 & H2 & ->).
        injection H1 as <- <-. rewrite E2 in H2. injection H2 as <- <-. reflexivity.
    + split; [discriminate|].
      intros (sk' & s1' & pk' & s2' & H1 & H2 & _).
      injection H1 as <- <-. rewrite E2 in H2. discriminate.
    + split; [discriminate|].
      intros (sk' & s1' & pk' & s2' & H1 & H2 & _).
      injection H1 as <- <-. rewrite E2 in H2. discriminate.
  - split; [discriminate|]. intros (sk' & s1' & pk' & s2' & H1 & _). discriminate.
  - split; [discriminate|]. intros (sk' & s1' & pk' & s2' & H1 & _). discriminate.
Qed.

(** What every constructed engine satisfies. *)
Lemma constructed_inv (ks sd : Z) (w : world (rng_state R)) :
  constructed R ks sd w ->
  key_size (self w) = ks /\ q (self w) = 8 /\ scale (self w) = 4 /\
  length (secret_key (self w)) = Z.to_nat ks /\
  length (public_key (self w)) = Z.to_nat ks.
Proof.
  intros (w0 & w1 & Hinit & Hself).
  apply init_run in Hinit. destruct Hinit as (sk & s1 & pk & s2 & H1 & H2 & ->).
  rewrite Hself. simpl.
  apply draw_bits_length in H1. apply draw_bits_length in H2.
  simpl in H1, H2. auto.
Qed.

(** [encrypt] on a bit: the public key reduced entry by entry, then the
    scaled message. *)
Lemma encrypt_run (w : world (rng_state R)) (m : Z) :
  q (self w) = 8 -> scale (self w) = 4 ->
  length (public_key (self w)) = Z.to_nat (key_size (self w)) ->
  in_ m [0; 1] = true ->
  encrypt R m w
  = (Ok (map (fun x => (x + 0) mod 8) (public_key (self w)) ++ [(m * 4 + 0) mod 8]), w).
Proof.
  intros Hq Hs Hlen Hm. unfold encrypt. rewrite Hm. cbn [negb].
  unfold bind at 1, attr at 1. cbv beta iota. unfold bind at 1.
  rewrite (for_pure (range (key_size (self w))) _
             (fun acc i => acc ++ [(nth (Z.to_nat i) (public_key (self w)) 0 + 0) mod 8])).
  - unfold bind, attr, lift, ret, mod_. rewrite Hq, Hs.
    change (8 =? 0) with false. cbv iota.
    rewrite fold_left_snoc. cbn [app].
    unfold range. rewrite map_map, <- Hlen.
    rewrite <- (map_nth_seq (fun x => (x + 0) mod 8)).
    do 3 f_equal. apply map_ext. intros i. now rewrite Nat2Z.id.
  - intros x acc Hx. unfold range in Hx. apply in_map_iff in Hx.
    destruct Hx as [i [<- Hi]]. apply in_seq in Hi.
    unfold bind, attr, lift, ret, mod_. rewrite getitem_of_nat by lia.
    rewrite Hq. change (8 =? 0) with false. cbv iota.
    rewrite Nat2Z.id. reflexivity.
Qed.

(** [encrypt] outside the bit domain raises before anything else happens. *)
Lemma encrypt_reject (w : world (rng_state R)) (m : Z) :
  in_ m [0; 1] = false -> encrypt R m w = (Raise InvalidInput, w).
Proof. intros Hm. unfold encrypt. rewrite Hm. reflexivity. Qed.

Lemma in_bits (m : Z) : in_ m [0; 1] = true <-> m = 0 \/ m = 1.
Proof.
  unfold in_. simpl. rewrite orb_false_r, orb_true_iff, !Z.eqb_eq. tauto.
Qed.

(** [decrypt] on a non-empty list. *)
Lemma decrypt_run (w : world (rng_state R)) (ct : list Z) :
  q (self w) = 8 -> scale (self w) = 4 -> ct <> [] ->
  decrypt R ct w
  = (Ok (((last ct 0
           - sum (map (fun '(a, b) => a * b) (zip (removelast ct) (secret_key (self w)))))
          mod 8) / 4), w).
Proof.
  intros Hq Hs Hct. unfold decrypt, bind, lift, attr, ret.
  rewrite getitem_minus_one by assumption.
  rewrite Hq, Hs, slice_to_minus_one. reflexivity.
Qed.

Lemma decrypt_empty (w : world (rng_state R)) : decrypt R [] w = (Raise IndexError, w).
Proof. reflexivity. Qed.

(** The element-wise loop shared by [add] and [multiply]. *)
Lemma zip_loop_run (op : Z -> Z -> Z) (w : world (rng_state R)) (l : list (Z * Z)) :
  q (self w) = 8 ->
  for_ R l
    (fun '(a, b) result_ =>
       q_ <- attr R q ;; v <- lift R (mod_ (op a b) q_) ;; ret (result_ ++ [v])) [] w
  = (Ok (map (fun '(a, b) => op a b mod 8) l), w).
Proof.
  intros Hq.
  rewrite (for_pure l _ (fun acc p => acc ++ [(let '(a, b) := p in op a b mod 8)])).
  - rewrite fold_left_snoc. reflexivity.
  - intros [a b] acc _. unfold bind, attr, lift. rewrite Hq. reflexivity.
Qed.

Lemma len_eqb (c1 c2 : list Z) : (len c1 =? len c2) = Nat.eqb (length c1) (length c2).
Proof.
  unfold len. destruct (Nat.eqb_spec (length c1) (length c2)) as [E|E].
  - rewrite E. apply Z.eqb_refl.
  - apply Z.eqb_neq. lia.
Qed.

Lemma add_run (w : world (rng_state R)) (c1 c2 : list Z) :
  q (self w) = 8 -> length c1 = length c2 -> c1 <> [] ->
  add R c1 c2 w
  = (Ok (map (fun '(a, b) => (a + b) mod 8) (zip (removelast c1) (removelast c2))
         ++ [(last c1 0 + last c2 0) mod 8]), w).
Proof.
  intros Hq Hlen Hc1.
  assert (Hc2 : c2 <> []) by (destruct c1, c2; simpl in Hlen; congruence).
  unfold add. rewrite len_eqb, Hlen, Nat.eqb_refl. cbn [negb].
  unfold bind at 1. rewrite !slice_to_minus_one, (zip_loop_run Z.add) by assumption.
  unfold bind, lift, attr, ret.
  rewrite !getitem_minus_one by assumption. rewrite Hq. reflexivity.
Qed.

Lemma multiply_run (w : world (rng_state R)) (c1 c2 : list Z) :
  q (self w) = 8 -> scale (self w) = 4 -> length c1 = length c2 -> c1 <> [] ->
  multiply R c1 c2 w
  = (Ok (map (fun '(a, b) => (a * b) mod 8) (zip (removelast c1) (removelast c2))
         ++ [(last c1 0 / 4 * (last c2 0 / 4) * 4) mod 8]), w).
Proof.
  intros Hq Hs Hlen Hc1.
  assert (Hc2 : c2 <> []) by (destruct c1, c2; simpl in Hlen; congruence).
  unfold multiply. rewrite len_eqb, Hlen, Nat.eqb_refl. cbn [negb].
  unfold bind at 1. rewrite !slice_to_minus_one, (zip_loop_run Z.mul) by assumption.
  unfold bind, lift, attr, ret.
  rewrite !getitem_minus_one by assumption. rewrite Hq, Hs. reflexivity.
Qed.

(** On two empty lists the length check passes and the message entry is
    missing. *)
Lemma add_empty (w : world (rng_state R)) : add R [] [] w = (Raise IndexError, w).
Proof. reflexivity. Qed.

Lemma multiply_empty (w : world (rng_state R)) : multiply R [] [] w = (Raise IndexError, w).
Proof. reflexivity. Qed.

Lemma add_mismatch (w : world (rng_state R)) (c1 c2 : list Z) :
  length c1 <> length c2 -> add R c1 c2 w = (Raise LengthMismatch, w).
Proof.
  intros H. unfold add. rewrite len_eqb.
  destruct (Nat.eqb_spec (length c1) (length c2)); [contradiction|reflexivity].
Qed.

Lemma multiply_mismatch (w : world (rng_state R)) (c1 c2 : list Z) :
  length c1 <> length c2 -> multiply R c1 c2 w = (Raise LengthMismatch, w).
Proof.
  intros H. unfold multiply. rewrite len_eqb.
  destruct (Nat.eqb_spec (length c1) (length c2)); [contradiction|reflexivity].
Qed.

Lemma zip_removelast_length (c1 c2 : list Z) :
  length c1 = length c2 ->
  length (zip (removelast c1) (removelast c2)) = pred (length c1).
Proof.
  intros H. unfold zip. rewrite length_combine, !removelast_length, H. lia.
Qed.

End Runs.

(* ================================================================== *)
(** ** The concrete engines are what the constructor returns *)

Lemma demo_world_init :
  __init__ CPython 8 42 fresh_world = (Ok tt, demo_world).
Proof. vm_compute. reflexivity. Qed.

Lemma demo_world_constructed : constructed CPython 8 42 demo_world.
Proof. exists fresh_world, demo_world. split; [exact demo_world_init | reflexivity]. Qed.

Lemma demo_world_keys :
  secret_key (self demo_world) = [0; 0; 1; 0; 0; 0; 0; 0] /\
  public_key (self demo_world) = [1; 0; 0; 0; 0; 0; 0; 0].
Proof. split; reflexivity. Qed.

Lemma seed0_world_init : __init__ CPython 1 0 fresh_world = (Ok tt, seed0_world).
Proof. vm_compute. reflexivity. Qed.

Lemma seed0_world_keys :
  secret_key (self seed0_world) = [1] /\ public_key (self seed0_world) = [1].
Proof. split; reflexivity. Qed.

(* ================================================================== *)
(** ** Round trip and homomorphic laws *)

(** C1 (round trip).  The claim is that decrypting [encrypt(b)] gives [b] back
    on every engine.  The code does not do this: [decrypt] subtracts the dot
    product of the mask with the secret key, which [encrypt] never added.  On
    [SimpleFHE(key_size=1, seed=0)] both keys are [[1]], [encrypt(0)] is
    [[1; 0]], and [decrypt] returns 1 instead of 0. *)
Theorem roundtrip_fails_key_size_1_seed_0 :
  __init__ CPython 1 0 fresh_world = (Ok tt, seed0_world) /\
  fst (encrypt CPython 0 seed0_world) = Ok [1; 0] /\
  fst ((c <- encrypt CPython 0 ;; decrypt CPython c)%py seed0_world) = Ok 1 /\
  1 <> 0.
Proof.
  split; [exact seed0_world_init|].
  split; [vm_compute; reflexivity|]. split; [vm_compute; reflexivity | discriminate].
Qed.

(** C2 (addition law).  The claim is that [decrypt(add(encrypt(b1), encrypt(b2)))]
    is [(b1 + b2) mod 2] on every engine.  On [SimpleFHE(key_size=1, seed=0)]
    with [b1 = b2 = 0] the sum ciphertext is [[2; 0]] and [decrypt] returns 1
    instead of 0. *)
Theorem add_law_fails_key_size_1_seed_0 :
  __init__ CPython 1 0 fresh_world = (Ok tt, seed0_world) /\
  fst ((c1 <- encrypt CPython 0 ;; c2 <- encrypt CPython 0 ;; add CPython c1 c2)%py
         seed0_world) = Ok [2; 0] /\
  fst ((c1 <- encrypt CPython 0 ;; c2 <- encrypt CPython 0 ;;
        s <- add CPython c1 c2 ;; decrypt CPython s)%py seed0_world) = Ok 1 /\
  1 <> (0 + 0) mod 2.
Proof.
  split; [exact seed0_world_init|].
  split; [vm_compute; reflexivity|]. split; [vm_compute; reflexivity | discriminate].
Qed.

(** C3 (multiplication law).  The claim is that
    [decrypt(multiply(encrypt(b1), encrypt(b2)))] is [b1 * b2] on every engine.
    On [SimpleFHE(key_size=1, seed=0)] with [b1 = b2 = 0] the product
    ciphertext is [[1; 0]] and [decrypt] returns 1 instead of 0. *)
Theorem multiply_law_fails_key_size_1_seed_0 :
  __init__ CPython 1 0 fresh_world = (Ok tt, seed0_world) /\
  fst ((c1 <- encrypt CPython 0 ;; c2 <- encrypt CPython 0 ;; multiply CPython c1 c2)%py
         seed0_world) = Ok [1; 0] /\
  fst ((c1 <- encrypt CPython 0 ;; c2 <- encrypt CPython 0 ;;
        p <- multiply CPython c1 c2 ;; decrypt CPython p)%py seed0_world) = Ok 1 /\
  1 <> 0 * 0.
Proof.
  split; [exact seed0_world_init|].
  split; [vm_compute; reflexivity|]. split; [vm_compute; reflexivity | discriminate].
Qed.

(* ================================================================== *)
(** ** Decryption *)

(** C4, as stated, fails: [decrypt] has no length check.  On the engine of the
    demonstration ([key_size = 8]) the one-entry list [[4]] has the wrong
    length, and [decrypt] returns 1. *)
Lemma decrypt_wrong_length_returns :
  constructed CPython 8 42 demo_world /\
  len [4] <> key_size (self demo_world) + 1 /\
  decrypt CPython [4] demo_world = (Ok 1, demo_world) /\
  fst (decrypt CPython [4] demo_world) <> Raise LengthMismatch.
Proof.
  split; [exact demo_world_constructed|].
  split; [vm_compute; discriminate|].
  split; [vm_compute; reflexivity | vm_compute; discriminate].
Qed.

(** C4, amended.  On a constructed engine, a list whose length is not
    [key_size + 1] never makes [decrypt] fail with [LengthMismatch]: a
    non-empty list is decrypted to an integer, the engine and the generator
    staying as they were, and the empty list raises [IndexError]. *)
Theorem decrypt_wrong_length (R : RandomModule) (ks sd : Z) (w : World R) (ct : list Z) :
  constructed R ks sd w ->
  len ct <> ks + 1 ->
  fst (decrypt R ct w) <> Raise LengthMismatch /\
  (ct = [] -> decrypt R ct w = (Raise IndexError, w)) /\
  (ct <> [] -> exists v, decrypt R ct w = (Ok v, w)).
Proof.
  intros Hc _. destruct (constructed_inv R ks sd w Hc) as (_ & Hq & Hs & _).
  destruct ct as [|x ct].
  - rewrite decrypt_empty. repeat split; [discriminate | congruence].
  - assert (Hne : x :: ct <> []) by discriminate.
    rewrite (decrypt_run R w (x :: ct) Hq Hs Hne).
    repeat split; [discriminate | discriminate | eauto].
Qed.

Lemma decrypt_wrong_length_witness :
  (fst (decrypt CPython [4] demo_world) <> Raise LengthMismatch /\
   exists v, decrypt CPython [4] demo_world = (Ok v, demo_world)) /\
  decrypt CPython [] demo_world = (Raise IndexError, demo_world).
Proof.
  split.
  - destruct (decrypt_wrong_length CPython 8 42 demo_world [4]) as (Hno & _ & Hret).
    + exact demo_world_constructed.
    + vm_compute. discriminate.
    + split; [exact Hno | apply Hret; discriminate].
  - apply (decrypt_wrong_length CPython 8 42 demo_world []).
    + exact demo_world_constructed.
    + vm_compute. discriminate.
    + reflexivity.
Defined.

(** C5.  On a constructed engine, [decrypt] of any non-empty list of integers,
    whatever its length, returns without an exception, and what it returns is
    0 or 1. *)
Theorem decrypt_nonempty_returns_bit
        (R : RandomModule) (ks sd : Z) (w : World R) (ct : list Z) :
  constructed R ks sd w ->
  ct <> [] ->
  exists v, decrypt R ct w = (Ok v, w) /\ (v = 0 \/ v = 1).
Proof.
  intros Hc Hne. destruct (constructed_inv R ks sd w Hc) as (_ & Hq & Hs & _).
  rewrite (decrypt_run R w ct Hq Hs Hne).
  eexists. split; [reflexivity|].
  match goal with |- (?x mod 8) / 4 = 0 \/ _ =>
    pose proof (Z.mod_pos_bound x 8 ltac:(lia)) as Hb;
    generalize dependent (x mod 8); intros r Hb
  end.
  assert (0 <= r / 4 < 2) by (split; [apply Z.div_pos; lia | apply Z.div_lt_upper_bound; lia]).
  lia.
Qed.

Lemma decrypt_nonempty_returns_bit_witness :
  exists v, decrypt CPython [1; 1; 5; 3] demo_world = (Ok v, demo_world) /\ (v = 0 \/ v = 1).
Proof.
  apply (decrypt_nonempty_returns_bit CPython 8 42 demo_world [1; 1; 5; 3]).
  - exact demo_world_constructed.
  - discriminate.
Defined.

(** C10, as stated, fails on the empty list: indexing the message entry raises
    [IndexError] before any dot product is taken. *)
Lemma decrypt_empty_raises :
  constructed CPython 8 42 demo_world /\
  decrypt CPython [] demo_world = (Raise IndexError, demo_world) /\
  forall v, fst (decrypt CPython [] demo_world) <> Ok v.
Proof.
  split; [exact demo_world_constructed|].
  split; [reflexivity|]. intros v. rewrite decrypt_empty. discriminate.
Qed.

(** C10, amended.  On a constructed engine and a non-empty list, [decrypt]
    returns what the specification describes: the dot product of the first
    [key_size] mask entries with the secret key as a plain integer sum, the
    difference with the message entry reduced to its residue in [[0, q)]
    (also when the difference is negative), and the floor quotient of that
    residue by [scale]. *)
Theorem decrypt_formula (R : RandomModule) (ks sd : Z) (w : World R) (ct : list Z) :
  constructed R ks sd w ->
  ct <> [] ->
  decrypt R ct w = (Ok (decrypt_spec (self w) ct), w) /\
  0 <= (last ct 0 - dot_spec (Z.to_nat (key_size (self w))) (removelast ct)
                             (secret_key (self w))) mod q (self w) < q (self w).
Proof.
  intros Hc Hne.
  destruct (constructed_inv R ks sd w Hc) as (Hks & Hq & Hs & Hsk & _).
  split.
  - rewrite (decrypt_run R w ct Hq Hs Hne). unfold decrypt_spec.
    rewrite zip_dot_spec, Hsk, Hks, Hq, Hs. reflexivity.
  - rewrite Hq. apply Z.mod_pos_bound. lia.
Qed.

Lemma decrypt_formula_witness :
  decrypt CPython [1; 1; 5; 3] demo_world
  = (Ok (decrypt_spec (self demo_world) [1; 1; 5; 3]), demo_world) /\
  0 <= (last [1; 1; 5; 3] 0
        - dot_spec (Z.to_nat (key_size (self demo_world))) (removelast [1; 1; 5; 3])
                   (secret_key (self demo_world))) mod q (self demo_world)
    < q (self demo_world).
Proof.
  apply (decrypt_formula CPython 8 42 demo_world [1; 1; 5; 3]).
  - exact demo_world_constructed.
  - discriminate.
Defined.

(* ================================================================== *)
(** ** Encryption *)

(** C6.  A message other than 0 and 1 makes [encrypt] raise [InvalidInput]:
    the outcome is the exception, not a ciphertext, and the world (the
    attributes of the engine and the shared generator) is the one it started
    from.  On a constructed engine a message that is 0 or 1 raises nothing: a
    ciphertext comes back, again in the same world. *)
Theorem encrypt_input_check (R : RandomModule) (w : World R) (m : Z) :
  (m <> 0 -> m <> 1 -> encrypt R m w = (Raise InvalidInput, w)) /\
  (forall ks sd, constructed R ks sd w -> m = 0 \/ m = 1 ->
                 exists ct, encrypt R m w = (Ok ct, w)).
Proof.
  split.
  - intros H0 H1. apply encrypt_reject.
    destruct (in_ m [0; 1]) eqn:E; [|reflexivity].
    apply in_bits in E. tauto.
  - intros ks sd Hc Hm.
    destruct (constructed_inv R ks sd w Hc) as (Hks & Hq & Hs & _ & Hpk).
    rewrite <- Hks in Hpk. apply in_bits in Hm.
    rewrite (encrypt_run R w m Hq Hs Hpk Hm). eauto.
Qed.

Lemma encrypt_input_check_witness :
  encrypt CPython 2 demo_world = (Raise InvalidInput, demo_world) /\
  exists ct, encrypt CPython 1 demo_world = (Ok ct, demo_world).
Proof.
  split.
  - apply (encrypt_input_check CPython demo_world 2); lia.
  - apply (proj2 (encrypt_input_check CPython demo_world 1) 8 42).
    + exact demo_world_constructed.
    + right. reflexivity.
Defined.

(* ================================================================== *)
(** ** Homomorphic operations *)

(** C7, as stated, fails on two empty lists: their lengths are equal, and
    [add] and [multiply] raise [IndexError] on the missing message entry. *)
Lemma add_multiply_empty_raise :
  constructed CPython 8 42 demo_world /\
  len [] = len [] /\
  add CPython [] [] demo_world = (Raise IndexError, demo_world) /\
  multiply CPython [] [] demo_world = (Raise IndexError, demo_world).
Proof.
  split; [exact demo_world_constructed|]. repeat split.
Qed.

(** C7, amended.  On a constructed engine [add] and [multiply] fail with
    [LengthMismatch] exactly when the two lists differ in length; when the
    lengths are equal and not zero, nothing is raised and a list of that
    length comes back, the world being left as it was. *)
Theorem add_multiply_length_check
        (R : RandomModule) (ks sd : Z) (w : World R) (c1 c2 : list Z) :
  constructed R ks sd w ->
  (fst (add R c1 c2 w) = Raise LengthMismatch <-> len c1 <> len c2) /\
  (fst (multiply R c1 c2 w) = Raise LengthMismatch <-> len c1 <> len c2) /\
  (len c1 = len c2 -> c1 <> [] ->
   exists r1 r2,
     add R c1 c2 w = (Ok r1, w) /\ multiply R c1 c2 w = (Ok r2, w) /\
     len r1 = len c1 /\ len r2 = len c1).
Proof.
  intros Hc. destruct (constructed_inv R ks sd w Hc) as (_ & Hq & Hs & _).
  assert (Hshape : forall f : Z * Z -> Z, c1 <> [] -> length c1 = length c2 ->
            forall a, len (map f (zip (removelast c1) (removelast c2)) ++ [a]) = len c1).
  { intros f Hne Hl a. unfold len. f_equal.
    rewrite length_app, length_map, zip_removelast_length by assumption.
    destruct c1; [congruence | simpl; lia]. }
  destruct (Nat.eq_dec (length c1) (length c2)) as [Hl|Hl].
  - assert (Hlen : len c1 = len c2) by (unfold len; congruence).
    destruct c1 as [|x c1].
    + destruct c2; [|discriminate]. rewrite add_empty, multiply_empty.
      repeat split; try discriminate; try congruence.
    + assert (Hne : x :: c1 <> []) by discriminate.
      rewrite (add_run R w _ _ Hq Hl Hne), (multiply_run R w _ _ Hq Hs Hl Hne).
      repeat split; try discriminate; try congruence.
      intros _ _. do 2 eexists. repeat split; apply Hshape; assumption.
  - assert (Hlen : len c1 <> len c2) by (unfold len; lia).
    rewrite (add_mismatch R w _ _ Hl), (multiply_mismatch R w _ _ Hl).
    repeat split; try congruence.
Qed.

Lemma add_multiply_length_check_witness :
  (exists r1 r2,
     add CPython [1; 2; 7] [3; 5; 6] demo_world = (Ok r1, demo_world) /\
     multiply CPython [1; 2; 7] [3; 5; 6] demo_world = (Ok r2, demo_world) /\
     len r1 = len [1; 2; 7] /\ len r2 = len [1; 2; 7]) /\
  fst (add CPython [1; 2] [3] demo_world) = Raise LengthMismatch /\
  fst (multiply CPython [1; 2] [3] demo_world) = Raise LengthMismatch.
Proof.
  split; [|split].
  - apply (add_multiply_length_check CPython 8 42 demo_world [1; 2; 7] [3; 5; 6]).
    + exact demo_world_constructed.
    + reflexivity.
    + discriminate.
  - apply (add_multiply_length_check CPython 8 42 demo_world [1; 2] [3]).
    + exact demo_world_constructed.
    + vm_compute. discriminate.
  - apply (add_multiply_length_check CPython 8 42 demo_world [1; 2] [3]).
    + exact demo_world_constructed.
    + vm_compute. discriminate.
Defined.

(** C8.  On an engine constructed with a key size that is not negative, every
    ciphertext [encrypt] returns has [key_size + 1] entries, each in [[0, q)];
    and whatever [add] or [multiply] return on two lists of one length has
    that length, each entry in [[0, q)]. *)
Theorem ciphertext_shape (R : RandomModule) (ks sd : Z) (w : World R) :
  constructed R ks sd w ->
  0 <= ks ->
  (forall m ct, fst (encrypt R m w) = Ok ct ->
                len ct = ks + 1 /\ residues (q (self w)) ct) /\
  (forall c1 c2 r, len c1 = len c2 -> fst (add R c1 c2 w) = Ok r ->
                   len r = len c1 /\ residues (q (self w)) r) /\
  (forall c1 c2 r, len c1 = len c2 -> fst (multiply R c1 c2 w) = Ok r ->
                   len r = len c1 /\ residues (q (self w)) r).
Proof.
  intros Hc Hks0.
  destruct (constructed_inv R ks sd w Hc) as (Hks & Hq & Hs & _ & Hpk).
  assert (Hone : forall a, residues 8 [a mod 8]).
  { intros a. constructor; [apply Z.mod_pos_bound; lia | constructor]. }
  rewrite Hq. split; [|split].
  - intros m ct H. destruct (in_ m [0; 1]) eqn:E.
    + rewrite <- Hks in Hpk. rewrite (encrypt_run R w m Hq Hs Hpk E) in H.
      injection H as <-. split.
      * unfold len. rewrite length_app, length_map, Hpk, Hks. simpl. lia.
      * apply residues_app; [apply residues_map_mod; lia | apply Hone].
    + rewrite (encrypt_reject R w m E) in H. discriminate.
  - intros c1 c2 r Hl H.
    assert (Hl' : length c1 = length c2) by (unfold len in Hl; lia).
    destruct (nil_or_not c1) as [->|Hne].
    + destruct c2; [|discriminate]. rewrite add_empty in H. discriminate.
    + rewrite (add_run R w _ _ Hq Hl' Hne) in H. injection H as <-. split.
      * unfold len. f_equal. now apply snoc_zip_length.
      * apply residues_app; [|apply Hone].
        apply Forall_forall. intros y Hy. apply in_map_iff in Hy.
        destruct Hy as [[a b] [<- _]]. apply Z.mod_pos_bound. lia.
  - intros c1 c2 r Hl H.
    assert (Hl' : length c1 = length c2) by (unfold len in Hl; lia).
    destruct (nil_or_not c1) as [->|Hne].
    + destruct c2; [|discriminate]. rewrite multiply_empty in H. discriminate.
    + rewrite (multiply_run R w _ _ Hq Hs Hl' Hne) in H. injection H as <-. split.
      * unfold len. f_equal. now apply snoc_zip_length.
      * apply residues_app; [|apply Hone].
        apply Forall_forall. intros y Hy. apply in_map_iff in Hy.
        destruct Hy as [[a b] [<- _]]. apply Z.mod_pos_bound. lia.
Qed.

Lemma ciphertext_shape_witness :
  (len [1; 0; 0; 0; 0; 0; 0; 0; 4] = 8 + 1 /\
   residues (q (self demo_world)) [1; 0; 0; 0; 0; 0; 0; 0; 4]) /\
  (len [4; 7; 5] = len [1; 2; 7] /\ residues (q (self demo_world)) [4; 7; 5]) /\
  (len [3; 2; 4] = len [1; 2; 7] /\ residues (q (self demo_world)) [3; 2; 4]).
Proof.
  destruct (ciphertext_shape CPython 8 42 demo_world demo_world_constructed)
    as (Henc & Hadd & Hmul); [lia|].
  split; [|split].
  - apply (Henc 1). reflexivity.
  - apply (Hadd [1; 2; 7] [3; 5; 6]); reflexivity.
  - apply (Hmul [1; 2; 7] [3; 5; 6]); reflexivity.
Defined.

(* ================================================================== *)
(** ** Determinism of construction and encryption *)

(** C9.  Construction depends on nothing but its arguments: if
    [SimpleFHE(key_size, seed)] returns in one process state, it returns in any
    other, whatever the attributes and the shared generator were before, and
    the two engines have the same secret key and the same public key.  However
    the generator moves on afterwards, [encrypt] of a bit gives the same
    ciphertext on both. *)
Theorem construction_deterministic
        (R : RandomModule) (ks sd : Z) (w1 w2 w1' : World R) :
  __init__ R ks sd w1 = (Ok tt, w1') ->
  exists w2',
    __init__ R ks sd w2 = (Ok tt, w2') /\
    secret_key (self w1') = secret_key (self w2') /\
    public_key (self w1') = public_key (self w2') /\
    forall b s1 s2, b = 0 \/ b = 1 ->
      exists ct,
        fst (encrypt R b (with_random R w1' s1)) = Ok ct /\
        fst (encrypt R b (with_random R w2' s2)) = Ok ct.
Proof.
  intros H1. exists w1'.
  pose proof H1 as Hinit. apply init_run in Hinit.
  destruct Hinit as (sk & s1 & pk & s2 & Hsk & Hpk & ->).
  split; [|split; [reflexivity|split; [reflexivity|]]].
  - apply init_run. exists sk, s1, pk, s2. auto.
  - intros b t1 t2 Hb. apply in_bits in Hb.
    apply draw_bits_length in Hpk. simpl in Hpk.
    eexists. split.
    + rewrite (encrypt_run R (with_random R _ t1) b); simpl; auto.
    + rewrite (encrypt_run R (with_random R _ t2) b); simpl; auto.
Qed.

Lemma construction_deterministic_witness :
  exists w2',
    __init__ CPython 8 42 other_world = (Ok tt, w2') /\
    secret_key (self demo_world) = secret_key (self w2') /\
    public_key (self demo_world) = public_key (self w2') /\
    forall b s1 s2, b = 0 \/ b = 1 ->
      exists ct,
        fst (encrypt CPython b (with_random CPython demo_world s1)) = Ok ct /\
        fst (encrypt CPython b (with_random CPython w2' s2)) = Ok ct.
Proof.
  apply (construction_deterministic CPython 8 42 fresh_world other_world demo_world).
  exact demo_world_init.
Defined.

(* ================================================================== *)
(** ** Further facts about the scheme as it is written *)

(** The demonstration of the source: on [SimpleFHE(key_size=8)] with the
    default seed 42 the keys have dot product 0, and each of the four test
    vectors decrypts to [(bit1 + bit2) mod 2] after [add] and to [bit1 * bit2]
    after [multiply]. *)
Theorem demo_scenario_laws :
  map (fun '(bit1, bit2) => demonstrate demo_world bit1 bit2) test_cases
  = map (fun '(bit1, bit2) => (Ok ((bit1 + bit2) mod 2), Ok (bit1 * bit2))) test_cases.
Proof. vm_compute. reflexivity. Qed.

(** What the round trip returns on any constructed engine: with [d] the dot
    product of the encrypted mask (the public key, entry by entry modulo 8)
    with the secret key, [decrypt(encrypt(b))] is [((4 * b - d) mod 8) // 4].
    It is [b] whenever [d] is a multiple of 8. *)
Theorem roundtrip_value (R : RandomModule) (ks sd : Z) (w : World R) (b : Z) :
  constructed R ks sd w ->
  b = 0 \/ b = 1 ->
  let d := dot_spec (Z.to_nat ks) (map (fun x => (x + 0) mod 8) (public_key (self w)))
                    (secret_key (self w)) in
  (c <- encrypt R b ;; decrypt R c)%py w = (Ok (((4 * b - d) mod 8) / 4), w) /\
  (d mod 8 = 0 -> (c <- encrypt R b ;; decrypt R c)%py w = (Ok b, w)).
Proof.
  intros Hc Hb d.
  destruct (constructed_inv R ks sd w Hc) as (Hks & Hq & Hs & Hsk & Hpk).
  assert (Hrun : (c <- encrypt R b ;; decrypt R c)%py w = (Ok (((4 * b - d) mod 8) / 4), w)).
  { unfold bind. rewrite <- Hks in Hpk.
    rewrite (encrypt_run R w b Hq Hs Hpk (proj2 (in_bits b) Hb)).
    rewrite (decrypt_run R w _ Hq Hs) by (intros E; apply app_eq_nil in E; destruct E; discriminate).
    rewrite last_last, removelast_last, zip_dot_spec, Hsk. fold d.
    do 3 f_equal. destruct Hb as [-> | ->]; reflexivity. }
  split; [exact Hrun|].
  intros Hd. rewrite Hrun. do 2 f_equal.
  rewrite Zminus_mod, Hd, Z.sub_0_r, Z.mod_mod by lia.
  destruct Hb as [-> | ->]; reflexivity.
Qed.

Lemma roundtrip_value_witness :
  let d := dot_spec (Z.to_nat 8)
                    (map (fun x => (x + 0) mod 8) (public_key (self demo_world)))
                    (secret_key (self demo_world)) in
  (c <- encrypt CPython 1 ;; decrypt CPython c)%py demo_world
  = (Ok (((4 * 1 - d) mod 8) / 4), demo_world) /\
  (d mod 8 = 0 ->
   (c <- encrypt CPython 1 ;; decrypt CPython c)%py demo_world = (Ok 1, demo_world)).
Proof.
  apply (roundtrip_value CPython 8 42 demo_world 1).
  - exact demo_world_constructed.
  - right. reflexivity.
Defined.

(** *** The keys under CPython's generator *)

Lemma genrand_uint32_nonneg (s : MT.RandomObject) : 0 <= fst (MT.genrand_uint32 s).
Proof.
  unfold MT.genrand_uint32. cbv zeta. cbn [fst]. unfold MT.u32.
  apply Z.land_nonneg. right. discriminate.
Qed.

Lemma getrandbits_words_nonneg (words : nat) (k : Z) (s : MT.RandomObject) :
  0 <= fst (MT.getrandbits_words words k s).
Proof.
  revert k s. induction words as [|n IH]; intros k s; [reflexivity|].
  cbn [MT.getrandbits_words].
  pose proof (genrand_uint32_nonneg s) as Hr.
  destruct (MT.genrand_uint32 s) as [r s1]. cbn [fst] in Hr.
  specialize (IH (k - 32) s1).
  destruct (MT.getrandbits_words n (k - 32) s1) as [high s2]. cbn [fst] in IH |- *.
  apply Z.lor_nonneg. split.
  - destruct (k <? 32); [apply Z.shiftr_nonneg|]; assumption.
  - apply Z.shiftl_nonneg. assumption.
Qed.

Lemma getrandbits_nonneg (k : Z) (s s' : MT.RandomObject) (r : Z) :
  MT.getrandbits k s = (Ok r, s') -> 0 <= r.
Proof.
  unfold MT.getrandbits.
  destruct (k <? 0); [discriminate|].
  destruct (k =? 0); [intros H; injection H as <- _; lia|].
  destruct (k <=? 32).
  - pose proof (genrand_uint32_nonneg s) as Hr.
    destruct (MT.genrand_uint32 s) as [y s1]. cbn [fst] in Hr.
    intros H. injection H as <- _. apply Z.shiftr_nonneg. assumption.
  - pose proof (getrandbits_words_nonneg (Z.to_nat ((k - 1) / 32 + 1)) k s) as Hr.
    destruct (MT.getrandbits_words _ k s) as [y s1]. cbn [fst] in Hr.
    intros H. injection H as <- _. assumption.
Qed.

Lemma randbelow_range (fuel : nat) (n : Z) (s s' : MT.RandomObject) (r : Z) :
  MT.randbelow fuel n s = (Ok r, s') -> 0 <= r < n.
Proof.
  revert s. induction fuel as [|fuel IH]; intros s; [discriminate|].
  cbn [MT.randbelow].
  destruct (MT.getrandbits (MT.bit_length n) s) as [[r0| e |] s1] eqn:E;
    try discriminate.
  destruct (Z.leb_spec n r0) as [Hle|Hlt].
  - apply IH.
  - intros H. injection H as <- _. apply getrandbits_nonneg in E. lia.
Qed.

Lemma CPython_randint_in_range : randint_in_range CPython.
Proof.
  intros a b s v s'. cbn [rng_randint CPython]. unfold MT.randint. cbv zeta.
  destruct (0 <? b + 1 - a); [|discriminate].
  destruct (MT.randbelow MT.randbelow_fuel (b + 1 - a) s) as [[r| e |] s1] eqn:E;
    try discriminate.
  intros H. injection H as <- _. apply randbelow_range in E. lia.
Qed.

Lemma draw_bits_bits (R : RandomModule) (n : nat) (acc l : list Z) (s s' : rng_state R) :
  randint_in_range R -> bits acc ->
  draw_bits R n acc s = (Ok l, s') -> bits l.
Proof.
  intros HR. revert acc s. induction n as [|n IH]; intros acc s Hacc H; simpl in H.
  - injection H as <- _. exact Hacc.
  - destruct (rng_randint R 0 1 s) as [[v| e |] s1] eqn:E; try discriminate.
    eapply IH; [|exact H].
    apply Forall_app. split; [exact Hacc|].
    constructor; [|constructor]. apply HR in E. lia.
Qed.

(** Key generation (sections 3 and 4.1 of the specification).  After
    [random.seed(seed)] the secret key is the first [key_size] draws of
    [random.randint(0, 1)] and the public key the next [key_size] draws, the
    generator being left after the second batch.  When [randint] keeps to its
    range, both keys are lists of bits, [key_size] long for a key size that is
    not negative. *)
Theorem key_generation (R : RandomModule) (ks sd : Z) (w0 w : World R) :
  __init__ R ks sd w0 = (Ok tt, w) ->
  (exists s1,
     draw_bits R (Z.to_nat ks) [] (rng_seed R sd) = (Ok (secret_key (self w)), s1) /\
     draw_bits R (Z.to_nat ks) [] s1 = (Ok (public_key (self w)), random w)) /\
  (0 <= ks -> len (secret_key (self w)) = ks /\ len (public_key (self w)) = ks) /\
  (randint_in_range R -> bits (secret_key (self w)) /\ bits (public_key (self w))).
Proof.
  intros H. apply init_run in H. destruct H as (sk & s1 & pk & s2 & Hsk & Hpk & ->).
  cbn [self random built secret_key public_key]. split; [|split].
  - exists s1. split; assumption.
  - intros Hks. apply draw_bits_length in Hsk, Hpk. unfold len.
    rewrite Hsk, Hpk. simpl. lia.
  - intros HR. split; eapply draw_bits_bits; eauto; constructor.
Qed.

Lemma key_generation_witness :
  (exists s1,
     draw_bits CPython (Z.to_nat 8) [] (rng_seed CPython 42)
     = (Ok (secret_key (self demo_world)), s1) /\
     draw_bits CPython (Z.to_nat 8) [] s1
     = (Ok (public_key (self demo_world)), random demo_world)) /\
  (len (secret_key (self demo_world)) = 8 /\ len (public_key (self demo_world)) = 8) /\
  (bits (secret_key (self demo_world)) /\ bits (public_key (self demo_world))).
Proof.
  destruct (key_generation CPython 8 42 fresh_world demo_world demo_world_init)
    as (Hdraws & Hlen & Hbits).
  split; [exact Hdraws|]. split; [apply Hlen; lia | apply Hbits].
  exact CPython_randint_in_range.
Defined.

(* ================================================================== *)
(** ** The methods only read *)

Section ReadOnly.

Variable R : RandomModule.

Lemma read_only_ret {A} (a : A) : read_only (@ret R A a).
Proof. intros w. reflexivity. Qed.

Lemma read_only_raise {A} (e : exn) : read_only (@raise R A e).
Proof. intros w. reflexivity. Qed.

Lemma read_only_lift {A} (r : result A) : read_only (@lift R A r).
Proof. intros w. reflexivity. Qed.

Lemma read_only_attr {A} (f : SimpleFHE -> A) : read_only (@attr R A f).
Proof. intros w. reflexivity. Qed.

Lemma read_only_bind {A B} (c : M R A) (k : A -> M R B) :
  read_only c -> (forall a, read_only (k a)) -> read_only (bind c k).
Proof.
  intros Hc Hk w. unfold bind. specialize (Hc w).
  destruct (c w) as [[a| e |] w']; simpl in Hc; subst w'; try reflexivity.
  apply Hk.
Qed.

Lemma read_only_for {A B} (xs : list A) (body : A -> B -> M R B) :
  (forall x acc, read_only (body x acc)) ->
  forall acc, read_only (for_ R xs body acc).
Proof.
  intros Hbody. induction xs as [|x xs IH]; intros acc.
  - apply read_only_ret.
  - cbn [for_]. apply read_only_bind; [apply Hbody | exact IH].
Qed.

Ltac read_only_step :=
  first [ apply read_only_ret | apply read_only_raise | apply read_only_lift
        | apply read_only_attr
        | apply read_only_for; intros [? ?] ?; cbv beta iota
        | apply read_only_for; intros ? ?
        | apply read_only_bind; [|intros ?] ].

Lemma encrypt_read_only (m : Z) : read_only (encrypt R m).
Proof. unfold encrypt. destruct (negb (in_ m [0; 1])); repeat read_only_step. Qed.

Lemma decrypt_read_only (ct : list Z) : read_only (decrypt R ct).
Proof. unfold decrypt. repeat read_only_step. Qed.

Lemma add_read_only (c1 c2 : list Z) : read_only (add R c1 c2).
Proof. unfold add. destruct (negb (len c1 =? len c2)); repeat read_only_step. Qed.

Lemma multiply_read_only (c1 c2 : list Z) : read_only (multiply R c1 c2).
Proof. unfold multiply. destruct (negb (len c1 =? len c2)); repeat read_only_step. Qed.

End ReadOnly.

(** The four methods never assign an attribute and never touch the shared
    generator: on every world (a constructed engine or not) and every
    argument, whether the call returns or raises, the world after the call is
    the world before it. *)
Theorem methods_leave_world_unchanged (R : RandomModule) (w : World R) :
  (forall m, snd (encrypt R m w) = w) /\
  (forall ct, snd (decrypt R ct w) = w) /\
  (forall c1 c2, snd (add R c1 c2 w) = w) /\
  (forall c1 c2, snd (multiply R c1 c2 w) = w).
Proof.
  split; [|split; [|split]]; intros.
  - apply encrypt_read_only.
  - apply decrypt_read_only.
  - apply add_read_only.
  - apply multiply_read_only.
Qed.

(* ================================================================== *)
(** ** Dot products modulo 8 *)

Lemma dot_product_nil_r (mask : list Z) : dot_product mask [] = 0.
Proof. destruct mask; reflexivity. Qed.

Lemma dot_product_cons (a s : Z) (mask key : list Z) :
  dot_product (a :: mask) (s :: key) = a * s + dot_product mask key.
Proof. unfold dot_product. rewrite !sum_fold_right. reflexivity. Qed.

Lemma dot_product_map_mod (f : Z -> Z) (l key : list Z) :
  dot_product (map (fun x => f x mod 8) l) key mod 8 = dot_product (map f l) key mod 8.
Proof.
  revert key. induction l as [|a l IH]; intros key; [reflexivity|].
  destruct key as [|s key]; [now rewrite !dot_product_nil_r|].
  cbn [map]. rewrite !dot_product_cons.
  rewrite Z.add_mod, Z.mul_mod_idemp_l, IH, <- Z.add_mod by lia. reflexivity.
Qed.

Lemma dot_product_zip_add (m1 m2 key : list Z) :
  length m1 = length m2 ->
  dot_product (map (fun '(a, b) => (a + b) mod 8) (zip m1 m2)) key mod 8
  = (dot_product m1 key + dot_product m2 key) mod 8.
Proof.
  revert m2 key. induction m1 as [|a m1 IH]; intros m2 key Hl.
  - destruct m2; [reflexivity | discriminate].
  - destruct m2 as [|b m2]; [discriminate|]. injection Hl as Hl.
    destruct key as [|s key]; [now rewrite !dot_product_nil_r|].
    cbn [zip combine map]. rewrite !dot_product_cons.
    rewrite Z.add_mod, Z.mul_mod_idemp_l by lia.
    change (combine m1 m2) with (zip m1 m2). rewrite (IH m2 key Hl).
    rewrite <- Z.add_mod by lia. f_equal. lia.
Qed.

Lemma zip_map_same (f : Z * Z -> Z) (l : list Z) :
  map f (zip l l) = map (fun x => f (x, x)) l.
Proof. induction l as [|a l IH]; [reflexivity|]. cbn [zip combine map]. f_equal. exact IH. Qed.

Lemma map_id_on {A} (f : A -> A) (l : list A) :
  Forall (fun x => f x = x) l -> map f l = l.
Proof. induction 1 as [|x l Hx _ IH]; [reflexivity|]. cbn [map]. now rewrite Hx, IH. Qed.

(** On a list of bits, reducing modulo 8 and squaring modulo 8 change nothing. *)
Lemma bits_mod (l : list Z) : bits l -> map (fun x => (x + 0) mod 8) l = l.
Proof.
  intros H. apply map_id_on. eapply Forall_impl; [|exact H].
  intros x [-> | ->]; reflexivity.
Qed.

Lemma bits_square (l : list Z) :
  bits l -> map (fun '(a, b) => (a * b) mod 8) (zip l l) = l.
Proof.
  intros H. rewrite zip_map_same. apply map_id_on. eapply Forall_impl; [|exact H].
  intros x [-> | ->]; reflexivity.
Qed.

Lemma dot_product_double (l key : list Z) :
  dot_product (map (fun '(a, b) => (a + b) mod 8) (zip l l)) key mod 8
  = (2 * dot_product l key) mod 8.
Proof. rewrite dot_product_zip_add by reflexivity. f_equal. lia. Qed.

(** *** The arithmetic of the three laws *)

Lemma roundtrip_arith (d b : Z) :
  b = 0 \/ b = 1 ->
  (((4 * b - d) mod 8) / 4 = b <-> 5 <= d mod 8 \/ d mod 8 = 0).
Proof. intros [-> | ->]; split; intros H; Z.div_mod_to_equations; lia. Qed.

Lemma add_law_arith (d b1 b2 : Z) :
  b1 = 0 \/ b1 = 1 -> b2 = 0 \/ b2 = 1 ->
  (((4 * (b1 + b2) - 2 * d) mod 8) / 4 = (b1 + b2) mod 2
   <-> d mod 4 = 0 \/ d mod 4 = 3).
Proof.
  intros [-> | ->] [-> | ->]; split; intros H; Z.div_mod_to_equations; lia.
Qed.

Lemma sub_mod_congr (x d d' : Z) : d mod 8 = d' mod 8 -> (x - d) mod 8 = (x - d') mod 8.
Proof. intros H. rewrite <- Zminus_mod_idemp_r, H, Zminus_mod_idemp_r. reflexivity. Qed.

(* ================================================================== *)
(** ** What the pipelines of the demonstration return *)

Section Pipelines.

Variable R : RandomModule.
Variable w : World R.
Hypothesis Hq : q (self w) = 8.
Hypothesis Hs : scale (self w) = 4.
Hypothesis Hpk : length (public_key (self w)) = Z.to_nat (key_size (self w)).

Let mask : list Z := map (fun x => (x + 0) mod 8) (public_key (self w)).

Lemma snoc_not_nil {A} (l : list A) (a : A) : l ++ [a] <> [].
Proof. intros E. apply app_eq_nil in E. destruct E. discriminate. Qed.

Lemma roundtrip_run (b : Z) :
  b = 0 \/ b = 1 ->
  roundtrip R b w
  = (Ok (((4 * b - dot_product mask (secret_key (self w))) mod 8) / 4), w).
Proof.
  intros Hb. unfold roundtrip, bind.
  rewrite (encrypt_run R w b Hq Hs Hpk (proj2 (in_bits b) Hb)).
  rewrite (decrypt_run R w _ Hq Hs (snoc_not_nil _ _)).
  rewrite last_last, removelast_last. fold mask.
  change (sum (map (fun '(a, b0) => a * b0) (zip mask (secret_key (self w)))))
    with (dot_product mask (secret_key (self w))).
  do 3 f_equal. destruct Hb as [-> | ->]; reflexivity.
Qed.

Lemma encrypt_add_run (b1 b2 : Z) :
  b1 = 0 \/ b1 = 1 -> b2 = 0 \/ b2 = 1 ->
  (c1 <- encrypt R b1 ;; c2 <- encrypt R b2 ;; add R c1 c2)%py w
  = (Ok (map (fun '(a, b) => (a + b) mod 8) (zip mask mask)
         ++ [(4 * (b1 + b2)) mod 8]), w).
Proof.
  intros Hb1 Hb2. unfold bind.
  rewrite (encrypt_run R w b1 Hq Hs Hpk (proj2 (in_bits b1) Hb1)).
  rewrite (encrypt_run R w b2 Hq Hs Hpk (proj2 (in_bits b2) Hb2)).
  rewrite (add_run R w _ _ Hq) by (rewrite ?length_app; auto using snoc_not_nil).
  rewrite !last_last, !removelast_last. fold mask.
  do 3 f_equal. destruct Hb1 as [-> | ->], Hb2 as [-> | ->]; reflexivity.
Qed.

Lemma encrypt_multiply_run (b1 b2 : Z) :
  b1 = 0 \/ b1 = 1 -> b2 = 0 \/ b2 = 1 ->
  (c1 <- encrypt R b1 ;; c2 <- encrypt R b2 ;; multiply R c1 c2)%py w
  = (Ok (map (fun '(a, b) => (a * b) mod 8) (zip mask mask)
         ++ [(b1 * b2 * 4 + 0) mod 8]), w).
Proof.
  intros Hb1 Hb2. unfold bind.
  rewrite (encrypt_run R w b1 Hq Hs Hpk (proj2 (in_bits b1) Hb1)).
  rewrite (encrypt_run R w b2 Hq Hs Hpk (proj2 (in_bits b2) Hb2)).
  rewrite (multiply_run R w _ _ Hq Hs) by (rewrite ?length_app; auto using snoc_not_nil).
  rewrite !last_last, !removelast_last. fold mask.
  do 3 f_equal. destruct Hb1 as [-> | ->], Hb2 as [-> | ->]; reflexivity.
Qed.

Lemma decrypt_add_run (b1 b2 : Z) :
  b1 = 0 \/ b1 = 1 -> b2 = 0 \/ b2 = 1 ->
  decrypt_add R b1 b2 w
  = (Ok (((4 * (b1 + b2) - 2 * dot_product mask (secret_key (self w))) mod 8) / 4), w).
Proof.
  intros Hb1 Hb2.
  pose proof (encrypt_add_run b1 b2 Hb1 Hb2) as Hadd.
  unfold decrypt_add. unfold bind in Hadd |- *.
  destruct (encrypt R b1 w) as [[c1| e |] w1]; try discriminate.
  destruct (encrypt R b2 w1) as [[c2| e |] w2]; try discriminate.
  rewrite Hadd.
  rewrite (decrypt_run R w _ Hq Hs (snoc_not_nil _ _)).
  rewrite last_last, removelast_last.
  change (sum (map (fun '(a, b) => a * b) (zip ?m (secret_key (self w)))))
    with (dot_product m (secret_key (self w))).
  do 3 f_equal.
  rewrite Zminus_mod, Z.mod_mod, dot_product_double, <- Zminus_mod by lia.
  reflexivity.
Qed.

End Pipelines.

Lemma seed0_world_constructed : constructed CPython 1 0 seed0_world.
Proof. exists fresh_world, seed0_world. split; [exact seed0_world_init | reflexivity]. Qed.

Lemma demo_world_public_bits : bits (public_key (self demo_world)).
Proof.
  unfold bits. cbn.
  repeat (apply Forall_cons; [first [left; reflexivity | right; reflexivity]|]).
  apply Forall_nil.
Qed.

Lemma seed0_world_public_bits : bits (public_key (self seed0_world)).
Proof.
  unfold bits. cbn.
  repeat (apply Forall_cons; [first [left; reflexivity | right; reflexivity]|]).
  apply Forall_nil.
Qed.

(* ================================================================== *)
(** ** Fresh ciphertexts *)

(** A fresh ciphertext carries its plaintext in the clear.  On a constructed
    engine [encrypt(b)] of a bit is the public key, entry by entry modulo 8,
    followed by [4 * b]: the mask is the same for both bits and does not
    involve the secret key, and the bit is the last entry floor-divided by
    [scale]. *)
Theorem encrypt_exposes_plaintext (R : RandomModule) (ks sd : Z) (w : World R) (b : Z) :
  constructed R ks sd w ->
  b = 0 \/ b = 1 ->
  exists ct,
    encrypt R b w = (Ok ct, w) /\
    removelast ct = map (fun x => x mod 8) (public_key (self w)) /\
    last ct 0 = 4 * b /\
    last ct 0 / scale (self w) = b.
Proof.
  intros Hc Hb. destruct (constructed_inv R ks sd w Hc) as (Hks & Hq & Hs & _ & Hpk).
  rewrite <- Hks in Hpk.
  rewrite (encrypt_run R w b Hq Hs Hpk (proj2 (in_bits b) Hb)).
  eexists. split; [reflexivity|].
  rewrite removelast_last, last_last, Hs. split; [|split].
  - apply map_ext. intros x. now rewrite Z.add_0_r.
  - destruct Hb as [-> | ->]; reflexivity.
  - destruct Hb as [-> | ->]; reflexivity.
Qed.

Lemma encrypt_exposes_plaintext_witness :
  exists ct,
    encrypt CPython 1 seed0_world = (Ok ct, seed0_world) /\
    removelast ct = map (fun x => x mod 8) (public_key (self seed0_world)) /\
    last ct 0 = 4 * 1 /\
    last ct 0 / scale (self seed0_world) = 1.
Proof.
  apply (encrypt_exposes_plaintext CPython 1 0 seed0_world 1).
  - exact seed0_world_constructed.
  - right. reflexivity.
Defined.

(** On a constructed engine whose public key is a list of bits, multiplying
    the fresh ciphertexts of two bits gives exactly the fresh ciphertext of
    their product. *)
Theorem multiply_fresh_is_encrypt
        (R : RandomModule) (ks sd : Z) (w : World R) (b1 b2 : Z) :
  constructed R ks sd w ->
  bits (public_key (self w)) ->
  b1 = 0 \/ b1 = 1 -> b2 = 0 \/ b2 = 1 ->
  (c1 <- encrypt R b1 ;; c2 <- encrypt R b2 ;; multiply R c1 c2)%py w
  = encrypt R (b1 * b2) w.
Proof.
  intros Hc Hbits Hb1 Hb2.
  destruct (constructed_inv R ks sd w Hc) as (Hks & Hq & Hs & _ & Hpk).
  rewrite <- Hks in Hpk.
  assert (Hb : b1 * b2 = 0 \/ b1 * b2 = 1)
    by (destruct Hb1 as [-> | ->], Hb2 as [-> | ->]; auto).
  rewrite (encrypt_multiply_run R w Hq Hs Hpk b1 b2 Hb1 Hb2).
  rewrite (encrypt_run R w _ Hq Hs Hpk (proj2 (in_bits _) Hb)).
  rewrite (bits_mod _ Hbits), (bits_square _ Hbits). reflexivity.
Qed.

Lemma multiply_fresh_is_encrypt_witness :
  (c1 <- encrypt CPython 1 ;; c2 <- encrypt CPython 1 ;; multiply CPython c1 c2)%py
    seed0_world
  = encrypt CPython (1 * 1) seed0_world.
Proof.
  apply (multiply_fresh_is_encrypt CPython 1 0 seed0_world 1 1).
  - exact seed0_world_constructed.
  - exact seed0_world_public_bits.
  - right. reflexivity.
  - right. reflexivity.
Defined.

(* ================================================================== *)
(** ** When the three laws hold *)

(** Round trip.  On a constructed engine whose public key is a list of bits,
    [decrypt(encrypt(b))] is [b] for both bits exactly when the dot product of
    the public key with the secret key is 0, 5, 6 or 7 modulo 8. *)
Theorem roundtrip_correct_iff (R : RandomModule) (ks sd : Z) (w : World R) :
  constructed R ks sd w ->
  bits (public_key (self w)) ->
  (forall b, b = 0 \/ b = 1 -> roundtrip R b w = (Ok b, w))
  <-> (5 <= key_dot (self w) mod 8 \/ key_dot (self w) mod 8 = 0).
Proof.
  intros Hc Hbits.
  destruct (constructed_inv R ks sd w Hc) as (Hks & Hq & Hs & _ & Hpk).
  rewrite <- Hks in Hpk.
  pose proof (roundtrip_run R w Hq Hs Hpk) as Hrun. cbv zeta in Hrun.
  rewrite (bits_mod _ Hbits) in Hrun. fold (key_dot (self w)) in Hrun.
  split.
  - intros H. specialize (H 0 (or_introl eq_refl)).
    rewrite (Hrun 0 (or_introl eq_refl)) in H.
    apply (roundtrip_arith (key_dot (self w)) 0); [now left | congruence].
  - intros H b Hb. rewrite (Hrun b Hb). do 2 f_equal.
    now apply roundtrip_arith.
Qed.

Lemma roundtrip_correct_iff_witness :
  ((forall b, b = 0 \/ b = 1 -> roundtrip CPython b demo_world = (Ok b, demo_world))
   <-> (5 <= key_dot (self demo_world) mod 8 \/ key_dot (self demo_world) mod 8 = 0)) /\
  roundtrip CPython 1 demo_world = (Ok 1, demo_world) /\
  ~ (forall b, b = 0 \/ b = 1 -> roundtrip CPython b seed0_world = (Ok b, seed0_world)).
Proof.
  split; [|split].
  - exact (roundtrip_correct_iff CPython 8 42 demo_world demo_world_constructed
             demo_world_public_bits).
  - apply (roundtrip_correct_iff CPython 8 42 demo_world demo_world_constructed
             demo_world_public_bits).
    + right. reflexivity.
    + right. reflexivity.
  - intros H.
    apply (roundtrip_correct_iff CPython 1 0 seed0_world seed0_world_constructed
             seed0_world_public_bits) in H.
    vm_compute in H. destruct H as [H | H]; [apply H; reflexivity | discriminate].
Defined.

(** Addition law.  On a constructed engine whose public key is a list of bits,
    [decrypt(add(encrypt(b1), encrypt(b2)))] is [(b1 + b2) mod 2] for all bits
    exactly when the dot product of the two keys is 0 or 3 modulo 4. *)
Theorem add_law_correct_iff (R : RandomModule) (ks sd : Z) (w : World R) :
  constructed R ks sd w ->
  bits (public_key (self w)) ->
  (forall b1 b2, b1 = 0 \/ b1 = 1 -> b2 = 0 \/ b2 = 1 ->
                 decrypt_add R b1 b2 w = (Ok ((b1 + b2) mod 2), w))
  <-> (key_dot (self w) mod 4 = 0 \/ key_dot (self w) mod 4 = 3).
Proof.
  intros Hc Hbits.
  destruct (constructed_inv R ks sd w Hc) as (Hks & Hq & Hs & _ & Hpk).
  rewrite <- Hks in Hpk.
  pose proof (decrypt_add_run R w Hq Hs Hpk) as Hrun. cbv zeta in Hrun.
  rewrite (bits_mod _ Hbits) in Hrun. fold (key_dot (self w)) in Hrun.
  split.
  - intros H. specialize (H 0 0 (or_introl eq_refl) (or_introl eq_refl)).
    rewrite (Hrun 0 0 (or_introl eq_refl) (or_introl eq_refl)) in H.
    apply (add_law_arith (key_dot (self w)) 0 0); [now left | now left | congruence].
  - intros H b1 b2 Hb1 Hb2. rewrite (Hrun b1 b2 Hb1 Hb2). do 2 f_equal.
    now apply add_law_arith.
Qed.

Lemma add_law_correct_iff_witness :
  decrypt_add CPython 1 1 demo_world = (Ok ((1 + 1) mod 2), demo_world) /\
  ~ (forall b1 b2, b1 = 0 \/ b1 = 1 -> b2 = 0 \/ b2 = 1 ->
                   decrypt_add CPython b1 b2 seed0_world
                   = (Ok ((b1 + b2) mod 2), seed0_world)).
Proof.
  split.
  - apply (add_law_correct_iff CPython 8 42 demo_world demo_world_constructed
             demo_world_public_bits).
    + left. reflexivity.
    + right. reflexivity.
    + right. reflexivity.
  - intros H.
    apply (add_law_correct_iff CPython 1 0 seed0_world seed0_world_constructed
             seed0_world_public_bits) in H.
    vm_compute in H. destruct H as [H | H]; discriminate.
Defined.

(** With a public key of bits, the product pipeline is the round trip of the
    product. *)
Lemma decrypt_multiply_run (R : RandomModule) (ks sd : Z) (w : World R) :
  constructed R ks sd w ->
  bits (public_key (self w)) ->
  forall b1 b2, b1 = 0 \/ b1 = 1 -> b2 = 0 \/ b2 = 1 ->
    decrypt_multiply R b1 b2 w
    = (Ok (((4 * (b1 * b2) - key_dot (self w)) mod 8) / 4), w).
Proof.
  intros Hc Hbits b1 b2 Hb1 Hb2.
  destruct (constructed_inv R ks sd w Hc) as (Hks & Hq & Hs & _ & Hpk).
  rewrite <- Hks in Hpk.
  pose proof (roundtrip_run R w Hq Hs Hpk) as Hrun. cbv zeta in Hrun.
  rewrite (bits_mod _ Hbits) in Hrun. fold (key_dot (self w)) in Hrun.
  assert (Hb : b1 * b2 = 0 \/ b1 * b2 = 1)
    by (destruct Hb1 as [-> | ->], Hb2 as [-> | ->]; auto).
  rewrite <- (Hrun _ Hb). unfold decrypt_multiply, roundtrip.
  pose proof (encrypt_multiply_run R w Hq Hs Hpk b1 b2 Hb1 Hb2) as Hm.
  cbv zeta in Hm. rewrite (bits_mod _ Hbits), (bits_square _ Hbits) in Hm.
  pose proof (encrypt_run R w _ Hq Hs Hpk (proj2 (in_bits _) Hb)) as He.
  rewrite (bits_mod _ Hbits) in He.
  unfold bind in Hm |- *. rewrite He.
  destruct (encrypt R b1 w) as [[c1| e |] w1]; try discriminate.
  destruct (encrypt R b2 w1) as [[c2| e |] w2]; try discriminate.
  rewrite Hm. reflexivity.
Qed.

(** Multiplication law.  On a constructed engine whose public key is a list of
    bits, [decrypt(multiply(encrypt(b1), encrypt(b2)))] is [b1 * b2] for all
    bits exactly when the dot product of the two keys is 0, 5, 6 or 7 modulo 8:
    the same engines as for the round trip. *)
Theorem multiply_law_correct_iff (R : RandomModule) (ks sd : Z) (w : World R) :
  constructed R ks sd w ->
  bits (public_key (self w)) ->
  (forall b1 b2, b1 = 0 \/ b1 = 1 -> b2 = 0 \/ b2 = 1 ->
                 decrypt_multiply R b1 b2 w = (Ok (b1 * b2), w))
  <-> (5 <= key_dot (self w) mod 8 \/ key_dot (self w) mod 8 = 0).
Proof.
  intros Hc Hbits.
  destruct (constructed_inv R ks sd w Hc) as (Hks & Hq & Hs & _ & Hpk).
  rewrite <- Hks in Hpk.
  pose proof (roundtrip_run R w Hq Hs Hpk) as Hrun. cbv zeta in Hrun.
  rewrite (bits_mod _ Hbits) in Hrun. fold (key_dot (self w)) in Hrun.
  pose proof (decrypt_multiply_run R ks sd w Hc Hbits) as Hpipe.
  split.
  - intros H. specialize (H 0 0 (or_introl eq_refl) (or_introl eq_refl)).
    rewrite (Hpipe 0 0 (or_introl eq_refl) (or_introl eq_refl)) in H.
    change (0 * 0) with 0 in H.
    apply (roundtrip_arith (key_dot (self w)) 0); [now left | congruence].
  - intros H b1 b2 Hb1 Hb2. rewrite (Hpipe b1 b2 Hb1 Hb2). do 2 f_equal.
    apply roundtrip_arith; [|exact H].
    destruct Hb1 as [-> | ->], Hb2 as [-> | ->]; auto.
Qed.

Lemma multiply_law_correct_iff_witness :
  decrypt_multiply CPython 1 1 demo_world = (Ok (1 * 1), demo_world) /\
  ~ (forall b1 b2, b1 = 0 \/ b1 = 1 -> b2 = 0 \/ b2 = 1 ->
                   decrypt_multiply CPython b1 b2 seed0_world
                   = (Ok (b1 * b2), seed0_world)).
Proof.
  split.
  - apply (multiply_law_correct_iff CPython 8 42 demo_world demo_world_constructed
             demo_world_public_bits).
    + right. reflexivity.
    + right. reflexivity.
    + right. reflexivity.
  - intros H.
    apply (multiply_law_correct_iff CPython 1 0 seed0_world seed0_world_constructed
             seed0_world_public_bits) in H.
    vm_compute in H. destruct H as [H | H]; [apply H; reflexivity | discriminate].
Defined.

(* ================================================================== *)
(** ** How decryption reads a ciphertext *)

Lemma last_map_nonempty (f : Z -> Z) (l : list Z) :
  l <> [] -> last (map f l) 0 = f (last l 0).
Proof.
  induction l as [|x l IH]; [congruence|]. intros _.
  destruct l as [|y l]; [reflexivity|].
  change (last (map f (y :: l)) 0 = f (last (y :: l) 0)). apply IH. discriminate.
Qed.

Lemma removelast_map_commute (f : Z -> Z) (l : list Z) :
  removelast (map f l) = map f (removelast l).
Proof.
  induction l as [|x l IH]; [reflexivity|].
  destruct l as [|y l]; [reflexivity|].
  change (f x :: removelast (map f (y :: l)) = f x :: map f (removelast (y :: l))).
  now rewrite IH.
Qed.

Lemma zip_app_surplus (mask extra key : list Z) :
  length mask = length key -> zip (mask ++ extra) key = zip mask key.
Proof.
  revert key. induction mask as [|a mask IH]; intros key Hl.
  - destruct key; [|discriminate]. destruct extra; reflexivity.
  - destruct key as [|s key]; [discriminate|]. injection Hl as Hl.
    cbn [app zip combine]. f_equal. apply IH. exact Hl.
Qed.

Lemma decrypt_phase (R : RandomModule) (w : World R) (ct : list Z) :
  q (self w) = 8 -> scale (self w) = 4 -> ct <> [] ->
  decrypt R ct w = (Ok (phase (self w) ct / 4), w).
Proof.
  intros Hq Hs Hne. rewrite (decrypt_run R w ct Hq Hs Hne).
  unfold phase. rewrite Hq. reflexivity.
Qed.

(** Decryption is additive.  On a constructed engine, for two lists of one
    non-zero length, [decrypt] returns the phase (message entry minus the dot
    product of the mask with the secret key, modulo [q]) floor-divided by
    [scale], and the phase of [add(c1, c2)] is the sum of the two phases modulo
    [q]: what [decrypt] returns after [add] is fixed by the two phases. *)
Theorem decrypt_add_phase (R : RandomModule) (ks sd : Z) (w : World R) (c1 c2 : list Z) :
  constructed R ks sd w ->
  length c1 = length c2 -> c1 <> [] ->
  decrypt R c1 w = (Ok (phase (self w) c1 / scale (self w)), w) /\
  decrypt R c2 w = (Ok (phase (self w) c2 / scale (self w)), w) /\
  (s <- add R c1 c2 ;; decrypt R s)%py w
  = (Ok (((phase (self w) c1 + phase (self w) c2) mod q (self w)) / scale (self w)), w).
Proof.
  intros Hc Hl Hne. destruct (constructed_inv R ks sd w Hc) as (_ & Hq & Hs & _).
  assert (Hne2 : c2 <> []) by (destruct c1, c2; simpl in Hl; congruence).
  rewrite Hs, Hq. split; [|split]; try (apply decrypt_phase; assumption).
  unfold bind. rewrite (add_run R w c1 c2 Hq Hl Hne).
  rewrite (decrypt_phase R w _ Hq Hs (snoc_not_nil _ _)).
  do 3 f_equal. unfold phase. rewrite Hq, last_last, removelast_last.
  rewrite Zminus_mod, Z.mod_mod, dot_product_zip_add, <- Zminus_mod, <- Z.add_mod
    by (try lia; rewrite !removelast_length; congruence).
  f_equal. lia.
Qed.

Lemma decrypt_add_phase_witness :
  decrypt CPython [1; 2; 7] seed0_world
  = (Ok (phase (self seed0_world) [1; 2; 7] / scale (self seed0_world)), seed0_world) /\
  decrypt CPython [3; 5; 6] seed0_world
  = (Ok (phase (self seed0_world) [3; 5; 6] / scale (self seed0_world)), seed0_world) /\
  (s <- add CPython [1; 2; 7] [3; 5; 6] ;; decrypt CPython s)%py seed0_world
  = (Ok (((phase (self seed0_world) [1; 2; 7] + phase (self seed0_world) [3; 5; 6])
          mod q (self seed0_world)) / scale (self seed0_world)), seed0_world).
Proof.
  apply (decrypt_add_phase CPython 1 0 seed0_world [1; 2; 7] [3; 5; 6]).
  - exact seed0_world_constructed.
  - reflexivity.
  - discriminate.
Defined.

(** Decryption reads its input modulo 8: on a constructed engine, reducing
    every entry of a list modulo 8 does not change what [decrypt] does with
    it (the value returned, or [IndexError] on the empty list). *)
Theorem decrypt_reads_residues (R : RandomModule) (ks sd : Z) (w : World R) (ct : list Z) :
  constructed R ks sd w ->
  decrypt R (map (fun x => x mod 8) ct) w = decrypt R ct w.
Proof.
  intros Hc. destruct (constructed_inv R ks sd w Hc) as (_ & Hq & Hs & _).
  destruct (nil_or_not ct) as [-> | Hne]; [reflexivity|].
  assert (Hne' : map (fun x => x mod 8) ct <> [])
    by (intros E; apply map_eq_nil in E; contradiction).
  rewrite (decrypt_phase R w _ Hq Hs Hne'), (decrypt_phase R w _ Hq Hs Hne).
  do 3 f_equal. unfold phase.
  rewrite Hq, last_map_nonempty, removelast_map_commute by assumption.
  rewrite Zminus_mod, Z.mod_mod, (dot_product_map_mod (fun x => x)), map_id, <- Zminus_mod
    by lia.
  reflexivity.
Qed.

Lemma decrypt_reads_residues_witness :
  decrypt CPython (map (fun x => x mod 8) [9; -3; 20]) seed0_world
  = decrypt CPython [9; -3; 20] seed0_world.
Proof.
  apply (decrypt_reads_residues CPython 1 0 seed0_world [9; -3; 20]).
  exact seed0_world_constructed.
Defined.

(** Decryption never looks past the key: on an engine constructed with a key
    size that is not negative, mask entries beyond the first [key_size] do not
    change what [decrypt] returns. *)
Theorem decrypt_ignores_surplus_mask
        (R : RandomModule) (ks sd : Z) (w : World R) (mask extra : list Z) (m : Z) :
  constructed R ks sd w ->
  0 <= ks -> len mask = ks ->
  decrypt R (mask ++ extra ++ [m]) w = decrypt R (mask ++ [m]) w.
Proof.
  intros Hc Hks0 Hlen.
  destruct (constructed_inv R ks sd w Hc) as (_ & Hq & Hs & Hsk & _).
  assert (Hl : length mask = length (secret_key (self w)))
    by (unfold len in Hlen; lia).
  rewrite app_assoc.
  rewrite !(decrypt_run R w _ Hq Hs (snoc_not_nil _ _)).
  rewrite !last_last, !removelast_last, (zip_app_surplus _ _ _ Hl). reflexivity.
Qed.

Lemma decrypt_ignores_surplus_mask_witness :
  decrypt CPython ([1] ++ [5; 6] ++ [4]) seed0_world
  = decrypt CPython ([1] ++ [4]) seed0_world.
Proof.
  apply (decrypt_ignores_surplus_mask CPython 1 0 seed0_world [1] [5; 6] 4).
  - exact seed0_world_constructed.
  - lia.
  - reflexivity.
Defined.

(* ================================================================== *)
(** ** The algebra of [add] and [multiply] *)

Lemma map_zip_swap (f : Z * Z -> Z) :
  (forall a b, f (a, b) = f (b, a)) ->
  forall l1 l2, map f (zip l1 l2) = map f (zip l2 l1).
Proof.
  intros Hf. induction l1 as [|a l1 IH]; intros l2.
  - destruct l2; reflexivity.
  - destruct l2 as [|b l2]; [reflexivity|].
    cbn [zip combine map]. rewrite Hf. f_equal. apply IH.
Qed.

Lemma zip_add_assoc (m1 m2 m3 : list Z) :
  map (fun '(a, b) => (a + b) mod 8)
      (zip (map (fun '(a, b) => (a + b) mod 8) (zip m1 m2)) m3)
  = map (fun '(a, b) => (a + b) mod 8)
        (zip m1 (map (fun '(a, b) => (a + b) mod 8) (zip m2 m3))).
Proof.
  revert m2 m3. induction m1 as [|a m1 IH]; intros m2 m3; [reflexivity|].
  destruct m2 as [|b m2]; [reflexivity|].
  destruct m3 as [|c m3]; [reflexivity|].
  cbn [zip combine map]. f_equal.
  - rewrite Zplus_mod_idemp_l, Zplus_mod_idemp_r. f_equal. lia.
  - apply IH.
Qed.

Lemma zip_mul_assoc (m1 m2 m3 : list Z) :
  map (fun '(a, b) => (a * b) mod 8)
      (zip (map (fun '(a, b) => (a * b) mod 8) (zip m1 m2)) m3)
  = map (fun '(a, b) => (a * b) mod 8)
        (zip m1 (map (fun '(a, b) => (a * b) mod 8) (zip m2 m3))).
Proof.
  revert m2 m3. induction m1 as [|a m1 IH]; intros m2 m3; [reflexivity|].
  destruct m2 as [|b m2]; [reflexivity|].
  destruct m3 as [|c m3]; [reflexivity|].
  cbn [zip combine map]. f_equal.
  - rewrite Zmult_mod_idemp_l, Zmult_mod_idemp_r. f_equal. lia.
  - apply IH.
Qed.

Lemma quarter_of_scaled (k : Z) : (k * 4) mod 8 / 4 = k mod 2.
Proof. Z.div_mod_to_equations. lia. Qed.

Lemma scaled_mod (k : Z) : (k * 4) mod 8 = k mod 2 * 4.
Proof. Z.div_mod_to_equations. lia. Qed.

Lemma message_mul_assoc (x y z : Z) :
  ((x * y * 4) mod 8 / 4 * z * 4) mod 8 = (x * ((y * z * 4) mod 8 / 4) * 4) mod 8.
Proof.
  rewrite !quarter_of_scaled, !scaled_mod.
  rewrite Zmult_mod_idemp_l, Zmult_mod_idemp_r. do 2 f_equal. lia.
Qed.

(** [add] and [multiply] are commutative: on a constructed engine, swapping
    the two arguments changes nothing, whether the call returns a list or
    raises ([LengthMismatch] on different lengths, [IndexError] on two empty
    lists). *)
Theorem add_multiply_commute (R : RandomModule) (ks sd : Z) (w : World R) (c1 c2 : list Z) :
  constructed R ks sd w ->
  add R c1 c2 w = add R c2 c1 w /\ multiply R c1 c2 w = multiply R c2 c1 w.
Proof.
  intros Hc. destruct (constructed_inv R ks sd w Hc) as (_ & Hq & Hs & _).
  destruct (Nat.eq_dec (length c1) (length c2)) as [Hl | Hl].
  - destruct (nil_or_not c1) as [-> | Hne].
    + destruct c2; [split; reflexivity | discriminate].
    + assert (Hne2 : c2 <> []) by (destruct c1, c2; simpl in Hl; congruence).
      rewrite (add_run R w c1 c2 Hq Hl Hne), (add_run R w c2 c1 Hq (eq_sym Hl) Hne2).
      rewrite (multiply_run R w c1 c2 Hq Hs Hl Hne),
              (multiply_run R w c2 c1 Hq Hs (eq_sym Hl) Hne2).
      split; do 3 f_equal.
      * apply map_zip_swap. intros a b. f_equal. lia.
      * do 2 f_equal. lia.
      * apply map_zip_swap. intros a b. f_equal. lia.
      * do 2 f_equal. lia.
  - rewrite (add_mismatch R w c1 c2 Hl), (multiply_mismatch R w c1 c2 Hl).
    rewrite (add_mismatch R w c2 c1), (multiply_mismatch R w c2 c1) by congruence.
    split; reflexivity.
Qed.

Lemma add_multiply_commute_witness :
  add CPython [1; 2; 7] [3; 5; 6] demo_world = add CPython [3; 5; 6] [1; 2; 7] demo_world /\
  multiply CPython [1; 2; 7] [3; 5; 6] demo_world
  = multiply CPython [3; 5; 6] [1; 2; 7] demo_world.
Proof.
  apply (add_multiply_commute CPython 8 42 demo_world [1; 2; 7] [3; 5; 6]).
  exact demo_world_constructed.
Defined.

(** [add] and [multiply] are associative: on a constructed engine and three
    lists of one non-zero length, combining the first two and then the third
    returns the same list as combining the first with the combination of the
    other two. *)
Theorem add_multiply_associate
        (R : RandomModule) (ks sd : Z) (w : World R) (c1 c2 c3 : list Z) :
  constructed R ks sd w ->
  length c1 = length c2 -> length c2 = length c3 -> c1 <> [] ->
  (exists r, (s <- add R c1 c2 ;; add R s c3)%py w = (Ok r, w) /\
             (t <- add R c2 c3 ;; add R c1 t)%py w = (Ok r, w)) /\
  (exists r, (s <- multiply R c1 c2 ;; multiply R s c3)%py w = (Ok r, w) /\
             (t <- multiply R c2 c3 ;; multiply R c1 t)%py w = (Ok r, w)).
Proof.
  intros Hc H12 H23 Hne1. destruct (constructed_inv R ks sd w Hc) as (_ & Hq & Hs & _).
  assert (Hne2 : c2 <> []) by (destruct c1, c2; simpl in H12; congruence).
  assert (Hlen : forall (f : Z * Z -> Z) a (l1 l2 l3 : list Z),
             l1 <> [] -> length l1 = length l2 -> length l1 = length l3 ->
             length (map f (zip (removelast l1) (removelast l2)) ++ [a]) = length l3).
  { intros f a l1 l2 l3 Hn Hl Hl3. rewrite snoc_zip_length by assumption. exact Hl3. }
  split; eexists; unfold bind.
  - rewrite (add_run R w c1 c2 Hq H12 Hne1), (add_run R w c2 c3 Hq H23 Hne2).
    rewrite (add_run R w _ c3 Hq) by (auto using snoc_not_nil; apply Hlen; congruence).
    rewrite (add_run R w c1 _ Hq)
      by (auto using snoc_not_nil; symmetry; apply Hlen; congruence).
    rewrite !removelast_last, !last_last, zip_add_assoc.
    split; [reflexivity|]. do 4 f_equal.
    rewrite Zplus_mod_idemp_l, Zplus_mod_idemp_r. f_equal. lia.
  - rewrite (multiply_run R w c1 c2 Hq Hs H12 Hne1), (multiply_run R w c2 c3 Hq Hs H23 Hne2).
    rewrite (multiply_run R w _ c3 Hq Hs)
      by (auto using snoc_not_nil; apply Hlen; congruence).
    rewrite (multiply_run R w c1 _ Hq Hs)
      by (auto using snoc_not_nil; symmetry; apply Hlen; congruence).
    rewrite !removelast_last, !last_last, zip_mul_assoc.
    split; [reflexivity|]. do 4 f_equal. symmetry. apply message_mul_assoc.
Qed.

Lemma add_multiply_associate_witness :
  (exists r,
     (s <- add CPython [1; 2; 7] [3; 5; 6] ;; add CPython s [7; 7; 5])%py demo_world
     = (Ok r, demo_world) /\
     (t <- add CPython [3; 5; 6] [7; 7; 5] ;; add CPython [1; 2; 7] t)%py demo_world
     = (Ok r, demo_world)) /\
  (exists r,
     (s <- multiply CPython [1; 2; 7] [3; 5; 6] ;; multiply CPython s [7; 7; 5])%py demo_world
     = (Ok r, demo_world) /\
     (t <- multiply CPython [3; 5; 6] [7; 7; 5] ;; multiply CPython [1; 2; 7] t)%py demo_world
     = (Ok r, demo_world)).
Proof.
  apply (add_multiply_associate CPython 8 42 demo_world [1; 2; 7] [3; 5; 6] [7; 7; 5]).
  - exact demo_world_constructed.
  - reflexivity.
  - reflexivity.
  - discriminate.
Defined.

(* ================================================================== *)
(** ** Edge of the key size, and the demonstration *)

Lemma to_nat_nonpos (k : Z) : k <= 0 -> Z.to_nat k = 0%nat.
Proof. destruct k; simpl; lia. Qed.

(** A key size of zero or below is accepted: the constructor returns without
    drawing from the generator it has just reseeded, both keys are empty, a
    ciphertext is the single entry [4 * b], and on such an engine the round
    trip and both homomorphic laws hold for all bits. *)
Theorem empty_key_engine (R : RandomModule) (ks sd : Z) (w0 : World R) :
  ks <= 0 ->
  exists w,
    __init__ R ks sd w0 = (Ok tt, w) /\
    secret_key (self w) = [] /\ public_key (self w) = [] /\
    random w = rng_seed R sd /\
    (forall b, b = 0 \/ b = 1 ->
       encrypt R b w = (Ok [4 * b], w) /\ roundtrip R b w = (Ok b, w)) /\
    (forall b1 b2, b1 = 0 \/ b1 = 1 -> b2 = 0 \/ b2 = 1 ->
       decrypt_add R b1 b2 w = (Ok ((b1 + b2) mod 2), w) /\
       decrypt_multiply R b1 b2 w = (Ok (b1 * b2), w)).
Proof.
  intros Hks. pose proof (to_nat_nonpos ks Hks) as Hn.
  set (w := Build_world (built ks sd [] []) (rng_seed R sd)).
  assert (Hinit : __init__ R ks sd w0 = (Ok tt, w)).
  { apply init_run. exists [], (rng_seed R sd), [], (rng_seed R sd).
    rewrite Hn. repeat split. }
  assert (Hc : constructed R ks sd w) by (exists w0, w; split; [exact Hinit | reflexivity]).
  assert (Hq : q (self w) = 8) by reflexivity.
  assert (Hs : scale (self w) = 4) by reflexivity.
  assert (Hpk : length (public_key (self w)) = Z.to_nat (key_size (self w)))
    by (simpl; now rewrite Hn).
  assert (Hbits : bits (public_key (self w))) by constructor.
  exists w. repeat (split; [first [exact Hinit | reflexivity]|]). split.
  - intros b Hb. split.
    + rewrite (encrypt_run R w b Hq Hs Hpk (proj2 (in_bits b) Hb)). simpl.
      destruct Hb as [-> | ->]; reflexivity.
    + rewrite (roundtrip_run R w Hq Hs Hpk b Hb). do 2 f_equal.
      apply roundtrip_arith; [exact Hb | right; reflexivity].
  - intros b1 b2 Hb1 Hb2. split.
    + rewrite (decrypt_add_run R w Hq Hs Hpk b1 b2 Hb1 Hb2). do 2 f_equal.
      apply add_law_arith; [exact Hb1 | exact Hb2 | left; reflexivity].
    + rewrite (decrypt_multiply_run R ks sd w Hc Hbits b1 b2 Hb1 Hb2). do 2 f_equal.
      apply roundtrip_arith; [|right; reflexivity].
      destruct Hb1 as [-> | ->], Hb2 as [-> | ->]; auto.
Qed.

Lemma empty_key_engine_witness :
  exists w,
    __init__ CPython (-3) 7 other_world = (Ok tt, w) /\
    secret_key (self w) = [] /\ public_key (self w) = [] /\
    random w = rng_seed CPython 7 /\
    (forall b, b = 0 \/ b = 1 ->
       encrypt CPython b w = (Ok [4 * b], w) /\ roundtrip CPython b w = (Ok b, w)) /\
    (forall b1 b2, b1 = 0 \/ b1 = 1 -> b2 = 0 \/ b2 = 1 ->
       decrypt_add CPython b1 b2 w = (Ok ((b1 + b2) mod 2), w) /\
       decrypt_multiply CPython b1 b2 w = (Ok (b1 * b2), w)).
Proof. apply (empty_key_engine CPython (-3) 7 other_world). lia. Defined.

Lemma demo_world_init_from (w : world MT.RandomObject) :
  __init__ CPython 8 42 w = (Ok tt, demo_world).
Proof.
  pose proof demo_world_init as H. apply init_run in H.
  destruct H as (sk & s1 & pk & s2 & Hsk & Hpk & Hw).
  apply init_run. exists sk, s1, pk, s2. auto.
Qed.

(** [demonstrate_fhe()] under CPython's generator.  In whatever state the
    process is when it is called, the function raises nothing, and the results
    it prints for the four test vectors are the expected values it prints
    beside them: [(bit1 + bit2) % 2] after [add] and [bit1 * bit2] after
    [multiply]. *)
Theorem demonstrate_fhe_prints_expected (w : world MT.RandomObject) :
  demonstrate_fhe CPython w = (Ok expected, demo_world).
Proof.
  unfold demonstrate_fhe, bind. change default_seed with 42.
  rewrite demo_world_init_from. vm_compute. reflexivity.
Qed.
